(** * The RBD driver utilities (drivers/storage/rbd/utils/utils.go)

    A shallow embedding of the functions of [utils.go] that interpret the
    results of the [rados] and [rbd] command line tools, together with the
    parts of the Go standard library they call, and the properties of the
    driver that follow from them.

    Conventions of the embedding:
    - a Go [string] or [[]byte] is a [string] (a sequence of 8-bit
      characters);
    - a Go [error] is an [option error], [None] being [nil];
    - a pointer result that may be [nil] is an [option];
    - a function returning [(T, error)] returns a pair;
    - running an external command and decoding JSON are inputs of the
      functions that do it (the variables of the sections below);
    - the logging calls on [ctx] have no effect on the results and are
      left out. *)

From stdpp Require Import gmap strings list fin_maps.
From Stdlib Require Import ZArith Ascii.
From Equations.Prop Require Import Equations Logic.

Local Open Scope Z_scope.

(** ** Go standard library: [syscall], [errors], [fmt], [strings] *)

Module syscall.

(** [syscall.WaitStatus] on Linux is a [uint32]. *)
Definition WaitStatus := Z.

Definition mask : Z := 0x7F.
Definition exited : Z := 0x00.
Definition shift : Z := 8.

(** [func (w WaitStatus) Exited() bool] *)
Definition Exited (w : WaitStatus) : bool := Z.eqb (Z.land w mask) exited.

(** [func (w WaitStatus) ExitStatus() int] *)
Definition ExitStatus (w : WaitStatus) : Z :=
  if negb (Exited w) then -1 else Z.land (Z.shiftr w shift) 0xFF.

End syscall.

(** The error values the driver sees or builds. *)
Inductive error :=
| ExitError (Sys : option syscall.WaitStatus) (Stderr : string)
    (** [*exec.ExitError]; [Sys] is [None] when [exiterr.Sys()] is not a
        [syscall.WaitStatus] *)
| ExecError (msg : string)
    (** any other error of [os/exec] (the executable is missing, ...) *)
| SyntaxError (msg : string)
    (** an error of [encoding/json] *)
| AddrError (Err Addr : string)
    (** [*net.AddrError] *)
| DNSError (Err Name : string)
    (** [*net.DNSError] *)
| goof_New (msg : string)
    (** [goof.New] and [goof.Newf] *)
| goof_WithError (msg : string) (inner : error).
    (** [goof.WithError] *)

Module fmt.

(** [fmt.Sprintf] for format strings whose only verb is [%s], applied to
    string operands. *)
Fixpoint Sprintf (format : string) (a : list string) : string :=
  match format with
  | EmptyString => ""
  | String "%" (String "s" rest) =>
      match a with
      | x :: a' => x +:+ Sprintf rest a'
      | [] => "%!s(MISSING)" +:+ Sprintf rest []
      end
  | String c rest => String c (Sprintf rest a)
  end.

End fmt.

Module strings.

(** [strings.HasPrefix] *)
Definition HasPrefix (s pfx : string) : bool := String.prefix pfx s.

(** [strings.Contains] *)
Fixpoint Contains (s substr : string) : bool :=
  String.prefix substr s ||
  match s with
  | EmptyString => false
  | String _ s' => Contains s' substr
  end.

(** Is the byte [c] one of the bytes of [cutset]? *)
Fixpoint inCutset (c : ascii) (cutset : string) : bool :=
  match cutset with
  | EmptyString => false
  | String d cutset' => Ascii.eqb c d || inCutset c cutset'
  end.

(** [strings.TrimLeft] *)
Fixpoint TrimLeft (s cutset : string) : string :=
  match s with
  | EmptyString => ""
  | String c s' => if inCutset c cutset then TrimLeft s' cutset else s
  end.

(** [strings.TrimRight] *)
Fixpoint TrimRight (s cutset : string) : string :=
  match s with
  | EmptyString => ""
  | String c s' =>
      match TrimRight s' cutset with
      | EmptyString => if inCutset c cutset then "" else String c ""
      | t => String c t
      end
  end.

(** [strings.Trim]: all leading and trailing bytes of [cutset] removed. *)
Definition Trim (s cutset : string) : string :=
  TrimRight (TrimLeft s cutset) cutset.

End strings.

(** ** The driver: constants and records *)

Definition radosCmd : string := "rados".
Definition rbdCmd : string := "rbd".
Definition formatOpt : string := "--format".
Definition jsonArg : string := "json".
Definition poolOpt : string := "--pool".

(** An entry of the table printed by [rbd showmapped]. *)
Record rbdMappedEntry := mkEntry {
  Device : string;
  Name : string;
  Pool : string;
  Snap : string
}.

(** [RBDInfo] holds low-level details about an RBD image (the fields of
    the Go struct, prefixed with its name; [int64] fields are integers). *)
Record RBDInfo := mkRBDInfo {
  RBDInfo_Name : string;
  RBDInfo_Size : Z;
  RBDInfo_Objects : Z;
  RBDInfo_Order : Z;
  RBDInfo_ObjectSize : Z;
  RBDInfo_BlockNamePrefix : string;
  RBDInfo_Format : Z;
  RBDInfo_Features : list string;
  RBDInfo_Pool : string
}.

(** [info.Pool = pool] *)
Definition set_RBDInfo_Pool (info : RBDInfo) (pool : string) : RBDInfo :=
  {| RBDInfo_Name := RBDInfo_Name info;
     RBDInfo_Size := RBDInfo_Size info;
     RBDInfo_Objects := RBDInfo_Objects info;
     RBDInfo_Order := RBDInfo_Order info;
     RBDInfo_ObjectSize := RBDInfo_ObjectSize info;
     RBDInfo_BlockNamePrefix := RBDInfo_BlockNamePrefix info;
     RBDInfo_Format := RBDInfo_Format info;
     RBDInfo_Features := RBDInfo_Features info;
     RBDInfo_Pool := pool |}.

(** A value decoded by [encoding/json] into an [interface{}]. *)
#[local] Set Warnings "-register-all".
Inductive value :=
| Null
| Bool (b : bool)
| Float64 (bits : Z)
    (** a JSON number, as the bits of its [float64] *)
| Str (s : string)
| Array (v : list value)
    (** [[]interface{}] *)
| Object (v : gmap string value).
    (** [map[string]interface{}] *)
#[local] Set Warnings "register-all".

Module exec.

(** [exec.Command(name, arg...)]: the argument vector [cmd.Args], the
    name of the program first. *)
Definition Command (name : string) (arg : list string) : list string :=
  name :: arg.

End exec.

(** ** [GetRBDInfo] *)

Section GetRBDInfo.

(** [cmd.Output()]: the standard output of the command and its error. *)
Variable Output : list string → string * option error.

(** [json.Unmarshal(out, info)] on a fresh [&RBDInfo{}]. *)
Variable Unmarshal : string → RBDInfo * option error.

(** [GetRBDInfo] gets low-level details about an RBD image. *)
Definition GetRBDInfo (pool name : string) : option RBDInfo * option error :=
  let cmd := exec.Command rbdCmd ["info"; "-p"; pool; name; formatOpt; jsonArg] in
  let '(out, err) := Output cmd in
  match err with
  | Some (ExitError sys stderr) =>
      match sys with
      | Some status =>
          if Z.eqb (syscall.ExitStatus status) 2
          then (* image does not exist *) (None, None)
          else (None, Some (goof_New (fmt.Sprintf "Unable to get rbd info: %s" [stderr])))
      | None =>
          (None, Some (goof_New (fmt.Sprintf "Unable to get rbd info: %s" [stderr])))
      end
  | Some e => (None, Some (goof_WithError "Unable to get rbd info" e))
  | None =>
      let '(info, err) := Unmarshal out in
      match err with
      | Some e => (None, Some (goof_WithError "Unable to parse rbd info" e))
      | None => (Some (set_RBDInfo_Pool info pool), None)
      end
  end.

End GetRBDInfo.

(** ** [GetVolumeID] *)

(** [GetVolumeID] returns an RBD Volume formatted as <pool>.<imageName>. *)
Definition GetVolumeID (pool image : string) : string :=
  fmt.Sprintf "%s.%s" [pool; image].


(** ** [GetRBDStatus] and [RBDHasWatchers] *)

(** The type switch of [RBDHasWatchers] on [m["watchers"]].  The key can
    have two differently formatted values, depending on the Ceph version:
    originally a map, [{"watchers": {"watcher": ...}}], later an array,
    [{"watchers": [{}, {}, ...]}].  A key that is missing reads as the nil
    interface value and takes the [default] branch. *)
Definition hasWatchers (m : gmap string value) : bool * option error :=
  match m !! "watchers" with
  | Some (Object v) => (bool_decide (0 < size v)%nat, None)
  | Some (Array v) => (bool_decide (0 < length v)%nat, None)
  | _ => (false, Some (goof_New "Unable to parse RBD status watchers"))
  end.

Section RBDStatus.

(** [cmd.Output()] *)
Variable Output : list string → string * option error.

(** [json.Unmarshal(out, &watcherMap)] on an empty [watcherMap]. *)
Variable Unmarshal : string → gmap string value * option error.

(** [GetRBDStatus] returns a map of RBD status info; a nil map is
    [None]. *)
Definition GetRBDStatus (pool image : string)
    : option (gmap string value) * option error :=
  let cmd := exec.Command rbdCmd
               ["status"; poolOpt; pool; image; formatOpt; jsonArg] in
  let '(out, err) := Output cmd in
  match err with
  | Some (ExitError _ stderr) =>
      (None, Some (goof_New (fmt.Sprintf "Unable to get RBD status: %s" [stderr])))
  | Some e => (None, Some (goof_WithError "Unable to get RBD status" e))
  | None =>
      let '(watcherMap, err) := Unmarshal out in
      match err with
      | Some e => (None, Some (goof_WithError "Unable to parse rbd status" e))
      | None => (Some watcherMap, None)
      end
  end.

(** [RBDHasWatchers] returns true if RBD image has watchers.  Reading a
    key of a nil map gives the same as reading it in an empty map. *)
Definition RBDHasWatchers (pool image : string) : bool * option error :=
  let '(m, err) := GetRBDStatus pool image in
  match err with
  | Some e => (false, Some e)
  | None => hasWatchers (default ∅ m)
  end.

End RBDStatus.

(** ** Memory: arrays of strings, slices of them and pointers into them *)

Definition loc := positive.

(** The heap holds the arrays of strings that back the [[]string] slices. *)
Abbreviation heap := (gmap loc (list string)).

(** A [*string] that points to an element of an array: [&a[i]]. *)
Record ptr := mkPtr { ptr_array : loc; ptr_index : nat }.

(** A [[]string]: a window of [slice_len] elements of its backing array,
    from the offset [slice_off] on. *)
Record slice := mkSlice { slice_array : loc; slice_off : nat; slice_len : nat }.

(** [*p] *)
Definition load (h : heap) (p : ptr) : option string :=
  a ← h !! ptr_array p; a !! ptr_index p.

(** [&s[i]] *)
Definition elem_addr (s : slice) (i : nat) : ptr :=
  mkPtr (slice_array s) (slice_off s + i).

(** [s[i]]; [None] when the index is out of range. *)
Definition elem (h : heap) (s : slice) (i : nat) : option string :=
  if decide (i < slice_len s)%nat then load h (elem_addr s i) else None.

(** ** [ConvStrArrayToPtr] *)

(** [ConvStrArrayToPtr] converts the slice of strings to a slice of pointers
    to str.  The result is the content of the new slice of pointers, [None]
    being the nil pointer [make] fills it with. *)
Definition ConvStrArrayToPtr (strArr : slice) : list (option ptr) :=
  let ptrArr := replicate (slice_len strArr) None in
  foldl (λ ptrArr i, <[i := Some (elem_addr strArr i)]> ptrArr)
        ptrArr (seq 0 (slice_len strArr)).

(** ** Go standard library: [bytes], [bufio] *)

(** [s[n:]] *)
Fixpoint sliceFrom (s : string) (n : nat) {struct n} : string :=
  match n, s with
  | S n', String _ s' => sliceFrom s' n'
  | _, _ => s
  end.

(** [s[:n]] *)
Fixpoint sliceTo (s : string) (n : nat) {struct n} : string :=
  match n, s with
  | S n', String c s' => String c (sliceTo s' n')
  | _, _ => ""
  end.

(** [s[:n]] for a binary bound, the whole of [s] when it is shorter. *)
Fixpoint sliceToN (s : string) (n : N) : string :=
  match s with
  | EmptyString => ""
  | String c s' =>
      if N.eqb n 0 then "" else String c (sliceToN s' (N.pred n))
  end.

Module bytes.

(** [bytes.IndexByte]: the index of the first [c] in [b], [None] for -1. *)
Fixpoint IndexByte (b : string) (c : ascii) : option nat :=
  match b with
  | EmptyString => None
  | String d b' => if Ascii.eqb d c then Some 0%nat else S <$> IndexByte b' c
  end.

End bytes.

Module bufio.

(** The maximum size of the buffer of a [Scanner], and so of a token with
    its line terminator. *)
Definition MaxScanTokenSize : N := 64 * 1024.

(** [dropCR] drops a terminal \r from the data. *)
Fixpoint dropCR (data : string) : string :=
  match data with
  | EmptyString => ""
  | String c EmptyString => if Ascii.eqb c "013" then "" else data
  | String c data' => String c (dropCR data')
  end.

(** [bufio.ScanLines], the split function of a new [Scanner]: the number
    of bytes to advance and the token, [None] for no token.  It returns
    each line of text, stripped of any trailing end-of-line marker; the
    returned line may be empty; the last non-empty line of input is
    returned even if it has no newline. *)
Definition ScanLines (data : string) (atEOF : bool) : nat * option string :=
  if atEOF && Nat.eqb (String.length data) 0 then (0%nat, None)
  else
    match bytes.IndexByte data "010" with
    | Some i => ((i + 1)%nat, Some (dropCR (sliceTo data i)))
    | None =>
        if atEOF then (String.length data, Some (dropCR data))
        else (0%nat, None)
    end.

(** A [Scanner] that reads from a [bytes.Reader]: the input that is not
    yet consumed, and the last token. *)
Record Scanner := mkScanner { input : string; token : string }.

(** [bufio.NewScanner(bytes.NewReader(out))] *)
Definition NewScanner (out : string) : Scanner := mkScanner out "".

(** [scanner.Scan()].  All of the input is at hand, so the split function
    sees the unconsumed input up to the size of the buffer, and sees the
    end of the input when what is left does not fill the buffer.  When it
    finds no token, the scan stops: at the end of the input, or with
    [ErrTooLong] on a line that does not fit the buffer (the driver does
    not look at [scanner.Err()]). *)
Definition Scan (s : Scanner) : bool * Scanner :=
  let data := sliceToN (input s) MaxScanTokenSize in
  let atEOF := (N.of_nat (String.length (input s)) <? MaxScanTokenSize)%N in
  match ScanLines data atEOF with
  | (advance, Some tok) => (true, mkScanner (sliceFrom (input s) advance) tok)
  | (_, None) => (false, mkScanner (input s) "")
  end.

(** [scanner.Text()] *)
Definition Text (s : Scanner) : string := token s.

End bufio.

(** ** [GetRadosPools] *)

(** The loop [for scanner.Scan() { pools = append(pools, scanner.Text()) }]. *)
Equations? scanPools (scanner : bufio.Scanner) (pools : list string)
  : list string by wf (String.length (bufio.input scanner)) lt :=
  scanPools scanner pools with inspect (bufio.Scan scanner) := {
    | exist _ (true, scanner') _ =>
        scanPools scanner' (pools ++ [bufio.Text scanner'])
    | exist _ (false, _) _ => pools }.
Proof.
  rename e into H. unfold bufio.Scan in H.
  destruct (bufio.ScanLines _ _) as [advance [tok|]] eqn:Hsplit;
    [|discriminate].
  injection H as <-. cbn [bufio.input].
  assert (Hlen : ∀ (t : string) (n : nat),
             t ≠ "" → (0 < n)%nat →
             (String.length (sliceFrom t n) < String.length t)%nat).
  { intros t n Ht Hn. destruct n as [|n]; [lia|]. destruct t as [|c t]; [done|].
    clear. cbn [sliceFrom String.length]. revert n.
    induction t as [|d t IH]; intros [|n]; cbn [sliceFrom String.length];
      try lia.
    specialize (IH n). lia. }
  unfold bufio.ScanLines in Hsplit. apply Hlen.
  - intros Hin. rewrite Hin in Hsplit. discriminate Hsplit.
  - destruct (_ && _) eqn:Hempty; [discriminate|].
    destruct (bytes.IndexByte _ _); [injection Hsplit as <- _; lia|].
    destruct (_ <? _)%N; [|discriminate].
    injection Hsplit as <- _. cbn [andb] in Hempty.
    apply Nat.eqb_neq in Hempty. lia.
Qed.

Section GetRadosPools.

(** [cmd.Output()] *)
Variable Output : list string → string * option error.

(** [GetRadosPools] returns a slice containing all the pool names: the
    heap, in which the array of the names is new, and the slice of the
    pointers to them. *)
Definition GetRadosPools (h : heap)
    : heap * (option (list (option ptr)) * option error) :=
  let cmd := exec.Command radosCmd ["lspools"] in
  let '(out, err) := Output cmd in
  match err with
  | Some (ExitError _ stderr) =>
      (h, (None, Some (goof_New (fmt.Sprintf "Unable to get pools: %s" [stderr]))))
  | Some e => (h, (None, Some (goof_WithError "Unable to get pools" e)))
  | None =>
      let pools := scanPools (bufio.NewScanner out) [] in
      let a := fresh (dom h) in
      (<[a := pools]> h,
       (Some (ConvStrArrayToPtr (mkSlice a 0 (length pools))), None))
  end.

End GetRadosPools.

(** The strings the pointers returned by [GetRadosPools] point to, in the
    heap it returns; [None] for a nil slice, and for a pointer that is nil
    or dangling. *)
Definition poolNames (r : heap * (option (list (option ptr)) * option error))
    : option (list (option string)) :=
  let '(h, (ptrs, _)) := r in
  match ptrs with
  | Some l => Some ((λ p : option ptr, p ≫= load h) <$> l)
  | None => None
  end.

(** The line feed, as a string. *)
Definition LF : string := String "010" "".

(** The text made of the given lines, each followed by a line feed. *)
Definition unlines (ls : list string) : string :=
  foldr (λ l text, l +:+ LF +:+ text) "" ls.

(** ** [GetMappedRBDs] *)

(** The result of a function that may panic instead of returning. *)
Inductive outcome (A : Type) :=
| Returns (a : A)
| Panics (msg : string).
Arguments Returns {A} a.
Arguments Panics {A} msg.

(** The loop of [GetMappedRBDs] over [rbdMap], on the entries in the order
    in which [range] visits them: [devMap[*volumeID] = mapped.Device].
    The entries are pointers; reading the fields of a nil one (a null in
    the JSON text) panics. *)
Fixpoint GetMappedRBDs_loop (entries : list (string * option rbdMappedEntry))
    (devMap : gmap string string) : outcome (gmap string string) :=
  match entries with
  | [] => Returns devMap
  | (_, None) :: _ =>
      Panics "runtime error: invalid memory address or nil pointer dereference"
  | (_, Some mapped) :: entries' =>
      let volumeID := GetVolumeID (Pool mapped) (Name mapped) in
      GetMappedRBDs_loop entries' (<[volumeID := Device mapped]> devMap)
  end.

Section GetMappedRBDs.

(** [cmd.Output()] *)
Variable Output : list string → string * option error.

(** [json.Unmarshal(out, &rbdMap)] on an empty [rbdMap]. *)
Variable Unmarshal : string → gmap string (option rbdMappedEntry) * option error.

(** The order in which [range] visits the entries of a map, which Go leaves
    unspecified. *)
Variable rangeOrder :
  gmap string (option rbdMappedEntry) → list (string * option rbdMappedEntry).

(** [GetMappedRBDs] returns a map of RBDs currently mapped to the *local*
    host. *)
Definition GetMappedRBDs
    : outcome (option (gmap string string) * option error) :=
  let cmd := exec.Command rbdCmd ["showmapped"; formatOpt; jsonArg] in
  let '(out, err) := Output cmd in
  match err with
  | Some (ExitError _ stderr) =>
      Returns (None, Some (goof_New (fmt.Sprintf "Unable to get RBD map: %s" [stderr])))
  | Some e => Returns (None, Some (goof_WithError "Unable to get RBD map" e))
  | None =>
      let devMap : gmap string string := ∅ in
      let '(rbdMap, err) := Unmarshal out in
      match err with
      | Some e =>
          Returns (None, Some (goof_WithError "Unable to parse rbd showmapped" e))
      | None =>
          match GetMappedRBDs_loop (rangeOrder rbdMap) devMap with
          | Returns devMap => Returns (Some devMap, None)
          | Panics msg => Panics msg
          end
      end
  end.

End GetMappedRBDs.

(** The volume identifier of a mapped entry. *)
Definition entryID (mapped : rbdMappedEntry) : string :=
  GetVolumeID (Pool mapped) (Name mapped).

(** Do all the bytes of [s] satisfy [p]? *)
Fixpoint allBytes (p : ascii → bool) (s : string) : bool :=
  match s with
  | EmptyString => true
  | String c s' => p c && allBytes p s'
  end.

(** ** Go standard library: [regexp] *)

(** The code of a byte. *)
Definition byteZ (c : ascii) : Z := Z.of_N (Ascii.N_of_ascii c).

(** ['0' <= c && c <= '9'] *)
Definition isDigit (c : ascii) : bool := (48 <=? byteZ c) && (byteZ c <=? 57).

Module regexp.

(** The syntax of the patterns, without the anchors. *)
Inductive Regexp :=
| EmptyMatch
| NoMatch
| CharClass (p : ascii → bool)
| Concat (r1 r2 : Regexp)
| Alternate (r1 r2 : Regexp)
| Star (r : Regexp).

(** A literal byte; [.] (any character but a line feed); [\d]; [r+]. *)
Definition Literal (c : ascii) : Regexp := CharClass (Ascii.eqb c).
Definition AnyCharNotNL : Regexp := CharClass (λ c, negb (Ascii.eqb c "010")).
Definition Digit : Regexp := CharClass isDigit.
Definition Plus (r : Regexp) : Regexp := Concat r (Star r).

(** The strings a pattern matches as a whole. *)
Inductive Matches : Regexp → string → Prop :=
| MatchesEmpty : Matches EmptyMatch ""
| MatchesClass p c : p c = true → Matches (CharClass p) (String c "")
| MatchesConcat r1 r2 s1 s2 :
    Matches r1 s1 → Matches r2 s2 → Matches (Concat r1 r2) (s1 +:+ s2)
| MatchesLeft r1 r2 s : Matches r1 s → Matches (Alternate r1 r2) s
| MatchesRight r1 r2 s : Matches r2 s → Matches (Alternate r1 r2) s
| MatchesStarNil r : Matches (Star r) ""
| MatchesStarApp r s1 s2 :
    Matches r s1 → Matches (Star r) s2 → Matches (Star r) (s1 +:+ s2).

(** Does the pattern match the empty string? *)
Fixpoint nullable (r : Regexp) : bool :=
  match r with
  | EmptyMatch => true
  | NoMatch => false
  | CharClass _ => false
  | Concat r1 r2 => nullable r1 && nullable r2
  | Alternate r1 r2 => nullable r1 || nullable r2
  | Star _ => true
  end.

(** The pattern of what may follow the byte [c] in a match of [r]. *)
Fixpoint deriv (c : ascii) (r : Regexp) : Regexp :=
  match r with
  | EmptyMatch => NoMatch
  | NoMatch => NoMatch
  | CharClass p => if p c then EmptyMatch else NoMatch
  | Concat r1 r2 =>
      if nullable r1
      then Alternate (Concat (deriv c r1) r2) (deriv c r2)
      else Concat (deriv c r1) r2
  | Alternate r1 r2 => Alternate (deriv c r1) (deriv c r2)
  | Star r1 => Concat (deriv c r1) (Star r1)
  end.

(** [re.MatchString(s)] for a pattern [re] anchored at both ends, with [^]
    and [$]: does the body [r] of the pattern match the whole of [s]? *)
Fixpoint MatchString (r : Regexp) (s : string) : bool :=
  match s with
  | EmptyString => nullable r
  | String c s' => MatchString (deriv c r) s'
  end.

End regexp.

(** ** Go standard library: [net] *)

(** The parsing of addresses of package [net], after the sources of its
    Go 1.8 release ([parse.go], [ip.go], [ipsock.go]): byte indices are
    natural numbers, and an index of -1 is [None]. *)

Module net.

Definition IPv4len : nat := 4.
Definition IPv6len : nat := 16.

(** An [IP] is a slice of bytes; the nil [IP] is [None] of [option IP]. *)
Definition IP := list Z.

(** [IPv4(a, b, c, d)]: the 16-byte form of the IPv4 address a.b.c.d. *)
Definition IPv4 (a b c d : Z) : IP :=
  [0; 0; 0; 0; 0; 0; 0; 0; 0; 0; 0xff; 0xff; a; b; c; d].

(** Bigger than we need, not too big to worry about overflow. *)
Definition big : Z := 0xFFFFFF.

(** The loop of [dtoi], from the value [n] read in [i] bytes. *)
Fixpoint dtoi_loop (s : string) (n : Z) (i : nat) : Z * nat * bool :=
  match s with
  | String c s' =>
      if isDigit c then
        let n := n * 10 + (byteZ c - 48) in
        if big <=? n then (big, i, false) else dtoi_loop s' n (S i)
      else if Nat.eqb i 0 then (0, 0%nat, false) else (n, i, true)
  | EmptyString => if Nat.eqb i 0 then (0, 0%nat, false) else (n, i, true)
  end.

(** Decimal to integer: the number, the count of the bytes consumed,
    success. *)
Definition dtoi (s : string) : Z * nat * bool := dtoi_loop s 0 0.

(** The value of a hexadecimal digit. *)
Definition hexDigit (c : ascii) : option Z :=
  let b := byteZ c in
  if (48 <=? b) && (b <=? 57) then Some (b - 48)
  else if (97 <=? b) && (b <=? 102) then Some (b - 97 + 10)
  else if (65 <=? b) && (b <=? 70) then Some (b - 65 + 10)
  else None.

(** The loop of [xtoi]. *)
Fixpoint xtoi_loop (s : string) (n : Z) (i : nat) : Z * nat * bool :=
  match s with
  | String c s' =>
      match hexDigit c with
      | Some d =>
          let n := n * 16 + d in
          if big <=? n then (0, i, false) else xtoi_loop s' n (S i)
      | None => if Nat.eqb i 0 then (0, i, false) else (n, i, true)
      end
  | EmptyString => if Nat.eqb i 0 then (0, i, false) else (n, i, true)
  end.

(** Hexadecimal to integer: the number, the count of the bytes consumed,
    success. *)
Definition xtoi (s : string) : Z * nat * bool := xtoi_loop s 0 0.

(** The loop of [parseIPv4] over the four octets: [left] of them are left
    to read, the next one is [p[i]]. *)
Fixpoint parseIPv4_loop (left i : nat) (s : string) (p : list Z)
    : option (string * list Z) :=
  match left with
  | O => Some (s, p)
  | S left' =>
      if Nat.eqb (String.length s) 0 then (* missing octets *) None
      else
        let dot :=
          if Nat.ltb 0 i then
            match s with
            | String "." s' => Some s'
            | _ => None
            end
          else Some s in
        match dot with
        | None => None
        | Some s =>
            let '(n, c, ok) := dtoi s in
            if negb ok || (0xFF <? n) then None
            else parseIPv4_loop left' (S i) (sliceFrom s c)
                                (<[i := n mod 256]> p)
        end
  end.

(** Parse IPv4 address (d.d.d.d). *)
Definition parseIPv4 (s : string) : option IP :=
  match parseIPv4_loop IPv4len 0 s [0; 0; 0; 0] with
  | None => None
  | Some (s, p) =>
      if negb (Nat.eqb (String.length s) 0) then None
      else Some (IPv4 (p !!! 0%nat) (p !!! 1%nat) (p !!! 2%nat) (p !!! 3%nat))
  end.

(** The variables of the loop of [parseIPv6]; [v6_ellipsis] is the position
    of the ellipsis in [v6_ip], [None] for -1. *)
Record v6state := mkV6 {
  v6_s : string;
  v6_i : nat;
  v6_ellipsis : option nat;
  v6_ip : list Z
}.

(** How one turn of the loop ends. *)
Inductive v6step :=
| ReturnNil
| Break (st : v6state)
| Continue (st : v6state).

(** [s[i] == c], for an index in range. *)
Definition byteIs (s : string) (i : nat) (c : ascii) : bool :=
  match String.get i s with
  | Some d => Ascii.eqb d c
  | None => false
  end.

(** The body of the loop of [parseIPv6]: a hex number followed by a
    colon. *)
Definition parseIPv6_step (st : v6state) : v6step :=
  let s := v6_s st in
  let i := v6_i st in
  let ellipsis := v6_ellipsis st in
  let ip := v6_ip st in
  let '(n, c, ok) := xtoi s in
  if negb ok || (0xFFFF <? n) then ReturnNil
  else if Nat.ltb c (String.length s) && byteIs s c "." then
    (* If followed by dot, might be in trailing IPv4. *)
    if negb (bool_decide (is_Some ellipsis)) &&
       negb (Nat.eqb i (IPv6len - IPv4len))
    then (* not the right place *) ReturnNil
    else if Nat.ltb IPv6len (i + IPv4len) then (* not enough room *) ReturnNil
    else
      match parseIPv4 s with
      | None => ReturnNil
      | Some ip4 =>
          let ip := <[i := ip4 !!! 12%nat]> ip in
          let ip := <[(i + 1)%nat := ip4 !!! 13%nat]> ip in
          let ip := <[(i + 2)%nat := ip4 !!! 14%nat]> ip in
          let ip := <[(i + 3)%nat := ip4 !!! 15%nat]> ip in
          Break (mkV6 "" (i + IPv4len) ellipsis ip)
      end
  else
    (* Save this 16-bit chunk. *)
    let ip := <[i := (Z.shiftr n 8) mod 256]> ip in
    let ip := <[(i + 1)%nat := n mod 256]> ip in
    let i := (i + 2)%nat in
    (* Stop at end of string. *)
    let s := sliceFrom s c in
    if Nat.eqb (String.length s) 0 then Break (mkV6 s i ellipsis ip)
    else if negb (byteIs s 0 ":") || Nat.eqb (String.length s) 1
    then (* otherwise must be followed by colon and more *) ReturnNil
    else
      let s := sliceFrom s 1 in
      (* Look for ellipsis. *)
      if byteIs s 0 ":" then
        if bool_decide (is_Some ellipsis) then (* already have one *) ReturnNil
        else
          let ellipsis := Some i in
          let s := sliceFrom s 1 in
          if Nat.eqb (String.length s) 0
          then (* can be at end *) Break (mkV6 s i ellipsis ip)
          else Continue (mkV6 s i ellipsis ip)
      else Continue (mkV6 s i ellipsis ip).

(** The loop [for i < IPv6len] of [parseIPv6]: the variables when it is
    left, [None] when its body returns nil. *)
Equations? parseIPv6_loop (st : v6state) : option v6state
  by wf (IPv6len - v6_i st)%nat lt :=
  parseIPv6_loop st with decide (v6_i st < IPv6len)%nat := {
    | right _ => Some st
    | left _ with inspect (parseIPv6_step st) := {
        | exist _ ReturnNil _ => None
        | exist _ (Break st') _ => Some st'
        | exist _ (Continue st') _ => parseIPv6_loop st' } }.
Proof.
  rename e into Hstep.
  assert (v6_i st' = v6_i st + 2)%nat as ->; [|lia].
  unfold parseIPv6_step in Hstep.
  destruct (xtoi (v6_s st)) as [[n c] ok].
  repeat match type of Hstep with
         | (if ?b then _ else _) = _ => destruct b
         | match ?x with _ => _ end = _ => destruct x
         end; try discriminate Hstep; injection Hstep as <-; reflexivity.
Qed.

(** Parse IPv6 address, without a zone. *)
Definition parseIPv6 (s : string) : option IP :=
  let ip := replicate IPv6len 0 in
  (* Might have leading ellipsis. *)
  let lead :=
    Nat.leb 2 (String.length s) && byteIs s 0 ":" && byteIs s 1 ":" in
  let ellipsis := if lead then Some 0%nat else None in
  let s := if lead then sliceFrom s 2 else s in
  if lead && Nat.eqb (String.length s) 0 then (* only ellipsis *) Some ip
  else
    match parseIPv6_loop (mkV6 s 0 ellipsis ip) with
    | None => None
    | Some (mkV6 s i ellipsis ip) =>
        (* Must have used entire string. *)
        if negb (Nat.eqb (String.length s) 0) then None
        else if Nat.ltb i IPv6len then
          (* If didn't parse enough, expand ellipsis. *)
          match ellipsis with
          | None => None
          | Some e =>
              let n := (IPv6len - i)%nat in
              let ip := foldl (λ ip j, <[(j + n)%nat := ip !!! j]> ip) ip
                              (rev (seq e (i - e))) in
              let ip := foldl (λ ip j, <[j := 0]> ip) ip (rev (seq e n)) in
              Some ip
          end
        else if bool_decide (is_Some ellipsis) then
          (* Ellipsis must represent at least one 0 group. *)
          None
        else Some ip
    end.

(** The choice [ParseIP] makes at the first dot or colon of [s]. *)
Fixpoint ParseIP_loop (s rest : string) : option IP :=
  match rest with
  | EmptyString => None
  | String "." _ => parseIPv4 s
  | String ":" _ => parseIPv6 s
  | String _ rest' => ParseIP_loop s rest'
  end.

(** [ParseIP] parses [s] as an IP address, returning the result.  The
    string [s] can be in dotted decimal ("192.0.2.1") or IPv6
    ("2001:db8::68") form.  If [s] is not a valid textual representation of
    an IP address, [ParseIP] returns nil. *)
Definition ParseIP (s : string) : option IP := ParseIP_loop s s.

(** Index of the rightmost occurrence of [b] in [s], [None] for -1. *)
Fixpoint last (s : string) (b : ascii) : option nat :=
  match s with
  | EmptyString => None
  | String c s' =>
      match last s' b with
      | Some i => Some (S i)
      | None => if Ascii.eqb c b then Some 0%nat else None
      end
  end.

(** Index of the first occurrence of [c] in [s], [None] for -1. *)
Definition byteIndex (s : string) (c : ascii) : option nat :=
  bytes.IndexByte s c.

(** [SplitHostPort] splits a network address of the form "host:port",
    "[host]:port" or "[ipv6-host%zone]:port" into host or ipv6-host%zone
    and port.  The result is [(host, port, err)]. *)
Definition SplitHostPort (hostport : string) : string * string * option error :=
  let missingPort := "missing port in address" in
  let tooManyColons := "too many colons in address" in
  let addrErr (why : string) := ("", "", Some (AddrError why hostport)) in
  (* The port starts after the last colon. *)
  match last hostport ":" with
  | None => addrErr missingPort
  | Some i =>
      let checked (host : string) (j k : nat) :=
        if bool_decide (is_Some (byteIndex (sliceFrom hostport j) "["))
        then addrErr "unexpected '[' in address"
        else if bool_decide (is_Some (byteIndex (sliceFrom hostport k) "]"))
        then addrErr "unexpected ']' in address"
        else (host, sliceFrom hostport (i + 1), None) in
      if byteIs hostport 0 "[" then
        (* Expect the first ']' just before the last ':'. *)
        match byteIndex hostport "]" with
        | None => addrErr "missing ']' in address"
        | Some end_ =>
            if Nat.eqb (end_ + 1) (String.length hostport)
            then (* there can't be a ':' behind the ']' now *)
              addrErr missingPort
            else if Nat.eqb (end_ + 1) i then
              (* the expected result *)
              checked (sliceTo (sliceFrom hostport 1) (end_ - 1))
                      1%nat (end_ + 1)%nat
            else if byteIs hostport (end_ + 1) ":" then addrErr tooManyColons
            else addrErr missingPort
        end
      else
        let host := sliceTo hostport i in
        if bool_decide (is_Some (byteIndex host ":")) then addrErr tooManyColons
        else if bool_decide (is_Some (byteIndex host "%"))
        then addrErr "missing brackets in address"
        else checked host 0%nat 0%nat
  end.

End net.

(** ** [ParseMonitorAddresses] *)

(** [ipv6wPortRX = regexp.MustCompile(`^\[.*\]:\d+$`)]: the body of the
    pattern, which is anchored at both ends. *)
Definition ipv6wPortRX : regexp.Regexp :=
  regexp.Concat (regexp.Literal "[")
    (regexp.Concat (regexp.Star regexp.AnyCharNotNL)
       (regexp.Concat (regexp.Literal "]")
          (regexp.Concat (regexp.Literal ":") (regexp.Plus regexp.Digit)))).

Definition hasPort (addr : string) : bool :=
  if strings.HasPrefix addr "[" then
    (* IPv6 *)
    regexp.MatchString ipv6wPortRX addr
  else strings.Contains addr ":".

Section ParseMonitorAddresses.

(** [net.LookupIP]: the answer of the resolver for a host name. *)
Variable LookupIP : string → list net.IP * option error.

(** The loop of [ParseMonitorAddresses] over [addrs]. *)
Fixpoint ParseMonitorAddresses_loop (addrs : list string) (monIps : list net.IP)
    : option (list net.IP) * option error :=
  match addrs with
  | [] => (Some monIps, None)
  | mon :: addrs' =>
      let '(host, err) :=
        if hasPort mon then
          let '(host, _, err) := net.SplitHostPort mon in (host, err)
        else (mon, None) in
      match err with
      | Some e => (None, Some e)
      | None =>
          let host :=
            if strings.HasPrefix host "["
            then (* pull the host/IP out of the brackets *)
              strings.Trim host "[]"
            else host in
          match net.ParseIP host with
          | Some ip => ParseMonitorAddresses_loop addrs' (monIps ++ [ip])
          | None =>
              let '(ips, err) := LookupIP host in
              match err with
              | Some e => (None, Some e)
              | None =>
                  if Nat.ltb 0 (length ips)
                  then ParseMonitorAddresses_loop addrs' (monIps ++ ips)
                  else ParseMonitorAddresses_loop addrs' monIps
              end
          end
      end
  end.

(** [ParseMonitorAddresses] returns a slice of IP address from the given
    slice of string addresses.  Addresses can be IPv4, IPv4:port, [IPv6],
    or [IPv6]:port. *)
Definition ParseMonitorAddresses (addrs : list string)
    : option (list net.IP) * option error :=
  ParseMonitorAddresses_loop addrs [].

End ParseMonitorAddresses.

(** An entry of [addrs] on which the splitting of host and port fails, or
    the resolution of the name of its host. *)
Definition entryFails (LookupIP : string → list net.IP * option error)
    (mon : string) : Prop :=
  (hasPort mon = true ∧ ∃ e, snd (net.SplitHostPort mon) = Some e) ∨
  (∃ host0 : string,
     ((hasPort mon = true ∧ ∃ port, net.SplitHostPort mon = (host0, port, None)) ∨
      (hasPort mon = false ∧ host0 = mon)) ∧
     let host :=
       if strings.HasPrefix host0 "[" then strings.Trim host0 "[]" else host0 in
     net.ParseIP host = None ∧ ∃ e, snd (LookupIP host) = Some e).

(** The addresses 10.0.0.1 and ::1. *)
Definition ip_10_0_0_1 : net.IP := net.IPv4 10 0 0 1.
Definition ip_loopback6 : net.IP := [0; 0; 0; 0; 0; 0; 0; 0; 0; 0; 0; 0; 0; 0; 0; 1].

(** * The other functions of the driver *)

(** ** [GetRBDImages] *)

(** [RBDImage] holds details about an RBD image (the fields of the Go
    struct, prefixed with its name). *)
Record RBDImage := mkRBDImage {
  RBDImage_Name : string;
  RBDImage_Size : Z;
  RBDImage_Format : Z;
  RBDImage_Pool : string
}.

(** [info.Pool = pool] *)
Definition set_RBDImage_Pool (info : RBDImage) (pool : string) : RBDImage :=
  {| RBDImage_Name := RBDImage_Name info;
     RBDImage_Size := RBDImage_Size info;
     RBDImage_Format := RBDImage_Format info;
     RBDImage_Pool := pool |}.

(** The loop [for _, info := range rbdList { info.Pool = *pool }] over the
    pointers of [rbdList], in the order of the slice; writing the field of
    a nil pointer (a null in the JSON text) panics. *)
Fixpoint GetRBDImages_loop (rbdList : list (option RBDImage)) (pool : string)
    : outcome (list (option RBDImage)) :=
  match rbdList with
  | [] => Returns []
  | None :: _ =>
      Panics "runtime error: invalid memory address or nil pointer dereference"
  | Some info :: rbdList' =>
      match GetRBDImages_loop rbdList' pool with
      | Returns l => Returns (Some (set_RBDImage_Pool info pool) :: l)
      | Panics msg => Panics msg
      end
  end.

Section GetRBDImages.

(** [cmd.Output()] *)
Variable Output : list string → string * option error.

(** [json.Unmarshal(out, &rbdList)] on a nil [rbdList]; the slice it
    leaves is [None] when it is nil. *)
Variable Unmarshal : string → option (list (option RBDImage)) * option error.

(** [GetRBDImages] returns a slice of RBD image info. *)
Definition GetRBDImages (pool : string)
    : outcome (option (list (option RBDImage)) * option error) :=
  let cmd := exec.Command rbdCmd ["ls"; "-p"; pool; "-l"; formatOpt; jsonArg] in
  let '(out, err) := Output cmd in
  match err with
  | Some (ExitError _ stderr) =>
      Returns (None, Some (goof_New (fmt.Sprintf "Unable to get rbd images: %s" [stderr])))
  | Some e => Returns (None, Some (goof_WithError "Unable to get rbd images" e))
  | None =>
      let '(rbdList, err) := Unmarshal out in
      match err with
      | Some e => Returns (None, Some (goof_WithError "Unable to parse rbd ls" e))
      | None =>
          match rbdList with
          | None => Returns (None, None)
          | Some l =>
              match GetRBDImages_loop l pool with
              | Returns l' => Returns (Some l', None)
              | Panics msg => Panics msg
              end
          end
      end
  end.

End GetRBDImages.

(** ** Go standard library: [strconv] *)

From Stdlib Require DecimalString DecimalZ.

Module strconv.

(** [strconv.FormatInt(i, 10)]: the decimal text of [i], with a minus sign
    when it is negative. *)
Definition FormatInt10 (i : Z) : string :=
  DecimalString.NilZero.string_of_int (Z.to_int i).

End strconv.

(** ** [RBDCreate], [RBDRemove], [RBDUnmap] *)

(** The loop of [RBDCreate] over [features], which appends
    ["--image-feature"] and the feature to [cmd.Args]; reading a nil
    feature panics. *)
Fixpoint RBDCreate_features (features : list (option string))
    (args : list string) : outcome (list string) :=
  match features with
  | [] => Returns args
  | None :: _ =>
      Panics "runtime error: invalid memory address or nil pointer dereference"
  | Some feature :: features' =>
      RBDCreate_features features' ((args ++ ["--image-feature"]) ++ [feature])
  end.

(** The argument vector [RBDCreate] runs. *)
Definition RBDCreate_args (pool image : string) (sizeGB : Z)
    (objectSize : string) (features : list (option string))
    : outcome (list string) :=
  let args := exec.Command rbdCmd
                ["create"; poolOpt; pool;
                 "--object-size"; objectSize;
                 "--size"; strconv.FormatInt10 sizeGB +:+ "G"] in
  match RBDCreate_features features args with
  | Returns args => Returns (args ++ [image])
  | Panics msg => Panics msg
  end.

Section Run.

(** [cmd.Run()]: the error of the command. *)
Variable Run : list string → option error.

(** [RBDCreate] creates a new RBD volume on the cluster. *)
Definition RBDCreate (pool image : string) (sizeGB : Z) (objectSize : string)
    (features : list (option string)) : outcome (option error) :=
  match RBDCreate_args pool image sizeGB objectSize features with
  | Panics msg => Panics msg
  | Returns args =>
      match Run args with
      | Some (ExitError _ stderr) =>
          Returns (Some (goof_New (fmt.Sprintf "Unable to create RBD: %s" [stderr])))
      | Some e => Returns (Some (goof_WithError "Unable to create RBD" e))
      | None => Returns None
      end
  end.

(** [RBDRemove] deletes the RBD volume on the cluster. *)
Definition RBDRemove (pool image : string) : option error :=
  let cmd := exec.Command rbdCmd ["rm"; poolOpt; pool; "--no-progress"; image] in
  match Run cmd with
  | Some (ExitError _ stderr) =>
      Some (goof_New (fmt.Sprintf "Error deleting RBD: %s" [stderr]))
  | Some e => Some (goof_WithError "Error deleting RBD" e)
  | None => None
  end.

(** [RBDUnmap] detaches the given RBD device from the *local* host. *)
Definition RBDUnmap (device : string) : option error :=
  let cmd := exec.Command rbdCmd ["unmap"; device] in
  match Run cmd with
  | Some (ExitError _ stderr) =>
      Some (goof_New (fmt.Sprintf "Unable to unmap RBD: %s" [stderr]))
  | Some e => Some (goof_WithError "Unable to unmap RBD" e)
  | None => None
  end.

End Run.

(** ** Writing through a pointer *)

(** [*p = v], or [a[i] = v] for [p = &a[i]]. *)
Definition store (h : heap) (p : ptr) (v : string) : heap :=
  alter (λ a, <[ptr_index p := v]> a) (ptr_array p) h.

(** * Properties *)

Lemma append_cons (c : ascii) (s t : string) :
  String c s +:+ t = String c (s +:+ t).
Proof. reflexivity. Qed.

Lemma append_empty_l (s : string) : "" +:+ s = s.
Proof. reflexivity. Qed.

Lemma append_empty_r (s : string) : s +:+ "" = s.
Proof.
  induction s as [|c s IH]; [reflexivity | by rewrite append_cons, IH].
Qed.

(** ** Describe image *)

(** C1: whatever the non-empty pool and image names, when the [rbd info]
    command ends with exit status 2, [GetRBDInfo] returns a nil
    [*RBDInfo] and a nil error (the image does not exist), not an error. *)
Theorem GetRBDInfo_exit_status_2
    (Output : list string → string * option error)
    (Unmarshal : string → RBDInfo * option error)
    (pool name out stderr : string) (status : syscall.WaitStatus) :
  pool ≠ "" → name ≠ "" →
  Output ["rbd"; "info"; "-p"; pool; name; "--format"; "json"]
    = (out, Some (ExitError (Some status) stderr)) →
  syscall.ExitStatus status = 2 →
  GetRBDInfo Output Unmarshal pool name = (None, None).
Proof.
  intros _ _ Hout Hst. unfold GetRBDInfo, exec.Command, rbdCmd, formatOpt, jsonArg.
  rewrite Hout, Hst. reflexivity.
Qed.

Lemma GetRBDInfo_exit_status_2_witness :
  GetRBDInfo
    (λ _, ("", Some (ExitError (Some 512) "rbd: error opening image vol1")))
    (λ _, (mkRBDInfo "" 0 0 0 0 "" 0 [] "", None))
    "rbd" "vol1" = (None, None).
Proof.
  apply (GetRBDInfo_exit_status_2 _ _ "rbd" "vol1" ""
           "rbd: error opening image vol1" 512);
    [discriminate | discriminate | reflexivity | reflexivity].
Defined.

(** ** Volume identifiers *)

Lemma Contains_byte_cons (c d : ascii) (s : string) :
  strings.Contains (String c s) (String d "") = false →
  c ≠ d ∧ strings.Contains s (String d "") = false.
Proof.
  cbn [strings.Contains String.prefix]. intros H.
  apply orb_false_iff in H as [Hc Hs]. split; [|exact Hs].
  intros ->. destruct (ascii_dec d d); [|done]. destruct s; discriminate Hc.
Qed.

Lemma Contains_dot_cons (c : ascii) (s : string) :
  strings.Contains (String c s) "." = false →
  c ≠ "."%char ∧ strings.Contains s "." = false.
Proof. apply Contains_byte_cons. Qed.

Lemma GetVolumeID_eq (pool image : string) :
  GetVolumeID pool image = pool +:+ "." +:+ image.
Proof.
  unfold GetVolumeID. cbn [fmt.Sprintf].
  by rewrite append_empty_r.
Qed.

Lemma dot_join_inj (p1 p2 i1 i2 : string) :
  strings.Contains p1 "." = false →
  strings.Contains p2 "." = false →
  p1 +:+ "." +:+ i1 = p2 +:+ "." +:+ i2 →
  p1 = p2 ∧ i1 = i2.
Proof.
  revert p2. induction p1 as [|c p1 IH]; intros [|d p2] H1 H2 Heq.
  - rewrite !append_empty_l, !append_cons, !append_empty_l in Heq.
    by injection Heq as ->.
  - apply Contains_dot_cons in H2 as [Hd _].
    rewrite append_empty_l, !append_cons in Heq. congruence.
  - apply Contains_dot_cons in H1 as [Hc _].
    rewrite append_empty_l, !append_cons in Heq. congruence.
  - apply Contains_dot_cons in H1 as [_ H1].
    apply Contains_dot_cons in H2 as [_ H2].
    rewrite !(append_cons _ _ ("." +:+ _)) in Heq.
    injection Heq as -> Heq.
    destruct (IH p2 H1 H2 Heq) as [-> ->]. done.
Qed.

(** C7: [GetVolumeID pool image] is the string [pool ++ "." ++ image], and
    on pairs neither component of which contains the separator ["."] it is
    injective: two distinct pairs never get the same volume identifier. *)
Theorem GetVolumeID_format_injective :
  (∀ pool image : string, GetVolumeID pool image = pool +:+ "." +:+ image) ∧
  (∀ pool1 image1 pool2 image2 : string,
     strings.Contains pool1 "." = false →
     strings.Contains image1 "." = false →
     strings.Contains pool2 "." = false →
     strings.Contains image2 "." = false →
     (pool1, image1) ≠ (pool2, image2) →
     GetVolumeID pool1 image1 ≠ GetVolumeID pool2 image2).
Proof.
  split; [apply GetVolumeID_eq|].
  intros p1 i1 p2 i2 Hp1 _ Hp2 _ Hne Heq. apply Hne.
  rewrite !GetVolumeID_eq in Heq.
  by destruct (dot_join_inj _ _ _ _ Hp1 Hp2 Heq) as [-> ->].
Qed.

Lemma GetVolumeID_format_injective_witness :
  GetVolumeID "rbd" "vol1" = "rbd.vol1" ∧
  GetVolumeID "rbd" "vol1" ≠ GetVolumeID "rbd" "vol2".
Proof.
  split.
  - apply (proj1 GetVolumeID_format_injective "rbd" "vol1").
  - apply (proj2 GetVolumeID_format_injective "rbd" "vol1" "rbd" "vol2");
      [reflexivity | reflexivity | reflexivity | reflexivity | discriminate].
Defined.

(** ** Watchers *)

Lemma RBDHasWatchers_status
    (Output : list string → string * option error)
    (Unmarshal : string → gmap string value * option error)
    (pool image : string) (m : gmap string value) :
  GetRBDStatus Output Unmarshal pool image = (Some m, None) →
  RBDHasWatchers Output Unmarshal pool image = hasWatchers m.
Proof. unfold RBDHasWatchers. by intros ->. Qed.

Lemma GetRBDStatus_error
    (Output : list string → string * option error)
    (Unmarshal : string → gmap string value * option error)
    (pool image : string) :
  snd (GetRBDStatus Output Unmarshal pool image) = None ∨
  fst (GetRBDStatus Output Unmarshal pool image) = None.
Proof.
  unfold GetRBDStatus. destruct (Output _) as [out [[]|]]; simpl; auto.
  destruct (Unmarshal out) as [w [e|]]; simpl; auto.
Qed.

(** C2: the interpretation of the ["watchers"] field of a status document
    [m].  A string-keyed mapping gives the boolean "the mapping is not
    empty" and no error; a sequence gives the boolean "the sequence is not
    empty" and no error; anything else (the field is missing, null, or of
    another shape) gives an error.  In particular [{"watchers": {}}] and
    [{"watchers": []}] give false, [{"watchers": {"w1": {}}}] and
    [{"watchers": [{}]}] give true, and [{}], [{"watchers": null}] and
    [{"watchers": "none"}] give an error. *)
Theorem hasWatchers_spec :
  (∀ (m : gmap string value) (v : gmap string value),
     m !! "watchers" = Some (Object v) →
     ∃ b : bool, hasWatchers m = (b, None) ∧ (b = true ↔ v ≠ ∅)) ∧
  (∀ (m : gmap string value) (v : list value),
     m !! "watchers" = Some (Array v) →
     ∃ b : bool, hasWatchers m = (b, None) ∧ (b = true ↔ v ≠ [])) ∧
  (∀ m : gmap string value,
     (∀ v, m !! "watchers" ≠ Some (Object v)) →
     (∀ v, m !! "watchers" ≠ Some (Array v)) →
     ∃ e : error, hasWatchers m = (false, Some e)) ∧
  hasWatchers {[ "watchers" := Object ∅ ]} = (false, None) ∧
  hasWatchers {[ "watchers" := Object {[ "w1" := Object ∅ ]} ]} = (true, None) ∧
  hasWatchers {[ "watchers" := Array [] ]} = (false, None) ∧
  hasWatchers {[ "watchers" := Array [Object ∅] ]} = (true, None) ∧
  (∃ e : error, hasWatchers ∅ = (false, Some e)) ∧
  (∃ e : error, hasWatchers {[ "watchers" := Null ]} = (false, Some e)) ∧
  (∃ e : error, hasWatchers {[ "watchers" := Str "none" ]} = (false, Some e)).
Proof.
  repeat apply conj.
  - intros m v Hm. unfold hasWatchers. rewrite Hm. eexists; split; [done|].
    rewrite bool_decide_eq_true. split.
    + intros Hs ->. rewrite map_size_empty in Hs. lia.
    + intros Hne. destruct (size v) eqn:Hsz; [|lia].
      by apply map_size_empty_inv in Hsz.
  - intros m v Hm. unfold hasWatchers. rewrite Hm. eexists; split; [done|].
    rewrite bool_decide_eq_true. destruct v; simpl; split; try done; lia.
  - intros m Ho Ha. unfold hasWatchers.
    destruct (m !! "watchers") as [[]|] eqn:Hm; eauto.
    + by destruct (Ha v).
    + by destruct (Ho v).
  - done.
  - unfold hasWatchers. rewrite lookup_singleton_eq.
    by rewrite map_size_singleton.
  - done.
  - done.
  - by eexists.
  - by eexists.
  - by eexists.
Qed.

Lemma hasWatchers_spec_witness :
  ∃ b : bool,
    hasWatchers {[ "watchers" := Object {[ "w1" := Object ∅ ]} ]} = (b, None) ∧
    (b = true ↔ ({[ "w1" := Object ∅ ]} : gmap string value) ≠ ∅).
Proof.
  apply (proj1 hasWatchers_spec
           {[ "watchers" := Object {[ "w1" := Object ∅ ]} ]}
           {[ "w1" := Object ∅ ]}).
  reflexivity.
Defined.

(** C10: whenever [RBDHasWatchers] returns an error (the status could not
    be fetched, its payload could not be decoded, or the ["watchers"] field
    has an unknown shape), the boolean it returns is false. *)
Theorem RBDHasWatchers_error_false
    (Output : list string → string * option error)
    (Unmarshal : string → gmap string value * option error)
    (pool image : string) :
  snd (RBDHasWatchers Output Unmarshal pool image) ≠ None →
  fst (RBDHasWatchers Output Unmarshal pool image) = false.
Proof.
  unfold RBDHasWatchers.
  destruct (GetRBDStatus Output Unmarshal pool image) as [m [e|]];
    [done|].
  unfold hasWatchers.
  destruct (default ∅ m !! "watchers") as [[]|]; simpl; congruence.
Qed.

Lemma RBDHasWatchers_error_false_witness :
  fst (RBDHasWatchers
         (λ _, ("", Some (ExitError (Some 256) "rbd: error opening image")))
         (λ _, (∅, None)) "rbd" "vol1") = false.
Proof.
  apply (RBDHasWatchers_error_false
           (λ _, ("", Some (ExitError (Some 256) "rbd: error opening image")))
           (λ _, (∅, None)) "rbd" "vol1").
  simpl. discriminate.
Defined.

(** ** Slices of pointers *)

Lemma ConvStrArrayToPtr_loop (strArr : slice) (m : nat) (pre : list (option ptr)) :
  foldl (λ ptrArr i, <[i := Some (elem_addr strArr i)]> ptrArr)
        (pre ++ replicate m None) (seq (length pre) m)
  = pre ++ ((λ i, Some (elem_addr strArr i)) <$> seq (length pre) m).
Proof.
  revert pre. induction m as [|m IH]; intros pre; [done|].
  cbn [seq foldl replicate fmap list_fmap].
  replace (<[length pre := Some (elem_addr strArr (length pre))]>
             (pre ++ None :: replicate m None))
    with ((pre ++ [Some (elem_addr strArr (length pre))]) ++ replicate m None).
  - specialize (IH (pre ++ [Some (elem_addr strArr (length pre))])).
    rewrite length_app in IH. cbn [length] in IH.
    rewrite Nat.add_1_r in IH. rewrite IH. by rewrite <- app_assoc.
  - rewrite <- app_assoc. cbn [app].
    rewrite insert_app_r_alt by lia. by rewrite Nat.sub_diag.
Qed.

Lemma ConvStrArrayToPtr_eq (strArr : slice) :
  ConvStrArrayToPtr strArr
  = (λ i, Some (elem_addr strArr i)) <$> seq 0 (slice_len strArr).
Proof.
  unfold ConvStrArrayToPtr.
  apply (ConvStrArrayToPtr_loop strArr (slice_len strArr) []).
Qed.

(** C9: for every slice of strings, [ConvStrArrayToPtr] returns a slice of
    pointers of the same length, the pointer at each index [i] pointing to
    the string at index [i] of the input. *)
Theorem ConvStrArrayToPtr_spec (h : heap) (strArr : slice) :
  length (ConvStrArrayToPtr strArr) = slice_len strArr ∧
  ∀ i : nat, (i < slice_len strArr)%nat →
    ∃ p : ptr, ConvStrArrayToPtr strArr !! i = Some (Some p) ∧
               load h p = elem h strArr i.
Proof.
  rewrite ConvStrArrayToPtr_eq. split.
  - by rewrite length_fmap, length_seq.
  - intros i Hi. exists (elem_addr strArr i). split.
    + rewrite list_lookup_fmap, lookup_seq_lt by done. done.
    + unfold elem. by rewrite decide_True.
Qed.

Lemma ConvStrArrayToPtr_spec_witness :
  ∃ p : ptr,
    ConvStrArrayToPtr (mkSlice 1%positive 1 2) !! 1%nat = Some (Some p) ∧
    load {[ 1%positive := ["x"; "y"; "z"] ]} p
    = elem {[ 1%positive := ["x"; "y"; "z"] ]} (mkSlice 1%positive 1 2) 1.
Proof.
  apply (proj2 (ConvStrArrayToPtr_spec
                  {[ 1%positive := ["x"; "y"; "z"] ]} (mkSlice 1%positive 1 2)) 1%nat).
  simpl. lia.
Defined.

(** ** Listing the pools *)

(** The model of the scanner on some texts: an empty line is a token, a
    carriage return before the line feed is dropped, and the last line
    needs no line feed. *)
Example scanPools_examples :
  scanPools (bufio.NewScanner "") [] = [] ∧
  scanPools (bufio.NewScanner ("rbd" +:+ LF)) [] = ["rbd"] ∧
  scanPools (bufio.NewScanner ("rbd" +:+ LF +:+ "data")) [] = ["rbd"; "data"] ∧
  scanPools (bufio.NewScanner (LF +:+ LF)) [] = [""; ""] ∧
  scanPools (bufio.NewScanner (String "r" (String "013" LF))) [] = ["r"].
Proof. vm_compute. repeat split. Qed.

Lemma LF_append (r : string) : LF +:+ r = String "010" r.
Proof. reflexivity. Qed.

Lemma IndexByte_line (l r : string) (n : N) :
  strings.Contains l LF = false →
  (N.of_nat (String.length l) < n)%N →
  bytes.IndexByte (sliceToN (l +:+ LF +:+ r) n) "010" = Some (String.length l).
Proof.
  revert n. induction l as [|c l IH]; intros n Hl Hn.
  - rewrite append_empty_l, LF_append. cbn [sliceToN String.length] in *.
    destruct (N.eqb_spec n 0); [lia|done].
  - apply Contains_byte_cons in Hl as [Hc Hl].
    rewrite append_cons. cbn [sliceToN String.length] in *.
    destruct (N.eqb_spec n 0); [lia|]. cbn [bytes.IndexByte].
    destruct (Ascii.eqb_spec c "010"); [done|].
    rewrite IH; [done|done|lia].
Qed.

Lemma sliceTo_line (l x : string) (n : N) :
  (N.of_nat (String.length l) <= n)%N →
  sliceTo (sliceToN (l +:+ x) n) (String.length l) = l.
Proof.
  revert n. induction l as [|c l IH]; intros n Hn; [done|].
  rewrite append_cons. cbn [sliceToN String.length] in *.
  destruct (N.eqb_spec n 0); [lia|]. cbn [sliceTo].
  rewrite IH; [done|lia].
Qed.

Lemma sliceFrom_line (l r : string) :
  sliceFrom (l +:+ LF +:+ r) (String.length l + 1) = r.
Proof.
  induction l as [|c l IH]; [by rewrite append_empty_l, LF_append|].
  rewrite append_cons. cbn [String.length Nat.add sliceFrom]. exact IH.
Qed.

Lemma Scan_line (l r t : string) :
  strings.Contains l LF = false →
  (N.of_nat (String.length l) < bufio.MaxScanTokenSize)%N →
  bufio.Scan (bufio.mkScanner (l +:+ LF +:+ r) t)
  = (true, bufio.mkScanner r (bufio.dropCR l)).
Proof.
  intros Hl Hn. unfold bufio.Scan, bufio.ScanLines. cbn [bufio.input].
  rewrite (IndexByte_line l r _ Hl Hn).
  rewrite sliceTo_line by lia.
  destruct (String.length (sliceToN _ _)) eqn:Hlen.
  - pose proof (IndexByte_line l r _ Hl Hn) as Hi.
    destruct (sliceToN _ _); [discriminate Hi|discriminate Hlen].
  - rewrite andb_false_r. by rewrite sliceFrom_line.
Qed.

Lemma Scan_end (t : string) :
  bufio.Scan (bufio.mkScanner "" t) = (false, bufio.mkScanner "" "").
Proof. reflexivity. Qed.

Lemma scanPools_eq (scanner : bufio.Scanner) (pools : list string) :
  scanPools scanner pools
  = let '(more, scanner') := bufio.Scan scanner in
    if more then scanPools scanner' (pools ++ [bufio.Text scanner']) else pools.
Proof.
  funelim (scanPools scanner pools);
    match goal with E : bufio.Scan _ = (_, _) |- _ => by rewrite E end.
Qed.

Lemma scanPools_unlines (ls pools : list string) (t : string) :
  Forall (λ l, strings.Contains l LF = false ∧
               (N.of_nat (String.length l) < bufio.MaxScanTokenSize)%N) ls →
  scanPools (bufio.mkScanner (unlines ls) t) pools
  = pools ++ (bufio.dropCR <$> ls).
Proof.
  intros Hls. revert pools t.
  induction Hls as [|l ls [Hl Hn] _ IH]; intros pools t; rewrite scanPools_eq.
  - cbn [unlines foldr]. rewrite Scan_end. by rewrite app_nil_r.
  - cbn [unlines foldr]. fold (unlines ls). rewrite (Scan_line l _ t Hl Hn).
    rewrite IH. cbn [bufio.Text bufio.token]. rewrite fmap_cons.
    by rewrite <- app_assoc.
Qed.

Lemma lookup_all (l : list string) :
  (λ i, l !! i) <$> seq 0 (length l) = Some <$> l.
Proof.
  induction l as [|x l IH]; [done|].
  cbn [length seq]. rewrite !fmap_cons. f_equal.
  rewrite <- IH, <- fmap_S_seq, <- list_fmap_compose. done.
Qed.

Lemma load_new_array (h : heap) (pools : list string) :
  let a := fresh (dom h) in
  (λ p : option ptr, p ≫= load (<[a := pools]> h))
    <$> ConvStrArrayToPtr (mkSlice a 0 (length pools))
  = Some <$> pools.
Proof.
  intros a. rewrite ConvStrArrayToPtr_eq. cbn [slice_len].
  rewrite <- lookup_all, <- list_fmap_compose.
  apply list_fmap_ext. intros _ i _. cbn. unfold load. cbn.
  by rewrite lookup_insert_eq.
Qed.

Lemma GetRadosPools_names
    (Output : list string → string * option error) (h : heap) (out : string) :
  Output ["rados"; "lspools"] = (out, None) →
  poolNames (GetRadosPools Output h)
  = Some (Some <$> scanPools (bufio.NewScanner out) []).
Proof.
  intros Hout. unfold GetRadosPools, exec.Command, radosCmd. rewrite Hout.
  cbn [poolNames]. by rewrite load_new_array.
Qed.

(** C3, as the code has it: the listing of the pools splits the output of
    the tool at the line feeds and returns one name for each line, in the
    order of the text: the line without a carriage return at its end, and
    the empty name for a blank line (blank lines are not skipped).  On the
    text ["a\nb\n\nc\n"] it returns the four names "a", "b", "" and "c". *)
Theorem GetRadosPools_one_name_per_line
    (Output : list string → string * option error) (h : heap)
    (ls : list string) :
  Forall (λ l, strings.Contains l LF = false ∧
               (N.of_nat (String.length l) < bufio.MaxScanTokenSize)%N) ls →
  Output ["rados"; "lspools"] = (unlines ls, None) →
  poolNames (GetRadosPools Output h) = Some (Some <$> (bufio.dropCR <$> ls)) ∧
  snd (snd (GetRadosPools Output h)) = None.
Proof.
  intros Hls Hout. split.
  - rewrite (GetRadosPools_names _ _ _ Hout). unfold bufio.NewScanner.
    by rewrite scanPools_unlines.
  - unfold GetRadosPools, exec.Command, radosCmd. by rewrite Hout.
Qed.

Lemma GetRadosPools_one_name_per_line_witness :
  poolNames (GetRadosPools (λ _, (unlines ["a"; "b"; ""; "c"], None)) ∅)
  = Some [Some "a"; Some "b"; Some ""; Some "c"] ∧
  snd (snd (GetRadosPools (λ _, (unlines ["a"; "b"; ""; "c"], None)) ∅)) = None.
Proof.
  apply (GetRadosPools_one_name_per_line
           (λ _, (unlines ["a"; "b"; ""; "c"], None)) ∅ ["a"; "b"; ""; "c"]).
  - repeat constructor.
  - reflexivity.
Defined.

(** C3, as the specification has it, fails: on ["a\nb\n\nc\n"] the names
    returned are not "a", "b", "c". *)
Lemma GetRadosPools_keeps_blank_lines :
  poolNames
    (GetRadosPools
       (λ _, ("a" +:+ LF +:+ "b" +:+ LF +:+ LF +:+ "c" +:+ LF, None)) ∅)
  ≠ Some [Some "a"; Some "b"; Some "c"].
Proof. vm_compute. discriminate. Qed.

(** ** The mapped devices *)

(** The map the loop builds from entries none of which is nil. *)
Lemma GetMappedRBDs_loop_returns
    (entries : list (string * rbdMappedEntry)) (devMap : gmap string string) :
  GetMappedRBDs_loop (prod_map id Some <$> entries) devMap
  = Returns (foldl (λ d ke, <[entryID ke.2 := Device ke.2]> d) devMap entries).
Proof.
  revert devMap. induction entries as [|[k e] entries IH]; intros devMap;
    [done|].
  rewrite fmap_cons. cbn [prod_map fst snd id GetMappedRBDs_loop foldl].
  by rewrite IH.
Qed.

Lemma rekey_lookup_ne
    (entries : list (string * rbdMappedEntry)) (devMap : gmap string string)
    (i : string) :
  (∀ k e, (k, e) ∈ entries → entryID e ≠ i) →
  foldl (λ d ke, <[entryID ke.2 := Device ke.2]> d) devMap entries !! i
  = devMap !! i.
Proof.
  revert devMap. induction entries as [|[k e] entries IH]; intros devMap Hne;
    [done|].
  cbn [foldl snd]. rewrite IH.
  - apply lookup_insert_ne. apply (Hne k e). left.
  - intros k' e' Hin. apply (Hne k' e'). by right.
Qed.

Lemma rekey_lookup_last
    (l1 l2 : list (string * rbdMappedEntry)) (k : string) (e : rbdMappedEntry)
    (devMap : gmap string string) :
  (∀ k' e', (k', e') ∈ l2 → entryID e' ≠ entryID e) →
  foldl (λ d ke, <[entryID ke.2 := Device ke.2]> d) devMap (l1 ++ (k, e) :: l2)
    !! entryID e = Some (Device e).
Proof.
  intros Hne. rewrite foldl_app. cbn [foldl snd].
  rewrite rekey_lookup_ne by done. apply lookup_insert_eq.
Qed.

Lemma rekey_is_Some
    (entries : list (string * rbdMappedEntry)) (devMap : gmap string string)
    (i : string) :
  is_Some (foldl (λ d ke, <[entryID ke.2 := Device ke.2]> d) devMap entries !! i)
  ↔ is_Some (devMap !! i) ∨ ∃ k e, (k, e) ∈ entries ∧ entryID e = i.
Proof.
  revert devMap. induction entries as [|[k e] entries IH]; intros devMap.
  - cbn [foldl]. split; [by left|]. intros [H|(k & e & Hin & _)]; [done|].
    by apply not_elem_of_nil in Hin.
  - cbn [foldl snd]. rewrite IH. rewrite lookup_insert_is_Some. split.
    + intros [[Hi|[_ Hd]]|(k' & e' & Hin & Hi)].
      * right. exists k, e. split; [left|done].
      * by left.
      * right. exists k', e'. split; [by right|done].
    + intros [Hd|(k' & e' & Hin & Hi)].
      * destruct (decide (entryID e = i)); left; [by left|by right].
      * apply elem_of_cons in Hin as [[= -> ->]|Hin].
        -- left. by left.
        -- right. by exists k', e'.
Qed.

Lemma elem_of_wrapped (entries : list (string * rbdMappedEntry))
    (k : string) (e : rbdMappedEntry) :
  (k, Some e) ∈ prod_map id Some <$> entries ↔ (k, e) ∈ entries.
Proof.
  rewrite list_elem_of_fmap. split.
  - intros ([k' e'] & [= -> ->] & Hin). done.
  - intros Hin. by exists (k, e).
Qed.

(** C8: the loop of [GetMappedRBDs] gives every entry of the table the key
    [GetVolumeID] makes of its pool and its image, with its device as the
    value, and no other key: the keys of the tool are dropped.  When
    several entries get the same key, the map keeps one of them, the one
    the loop visits last: it overwrites the earlier ones. *)
Theorem GetMappedRBDs_last_write_wins
    (Output : list string → string * option error)
    (Unmarshal : string → gmap string (option rbdMappedEntry) * option error)
    (rangeOrder : gmap string (option rbdMappedEntry) →
                  list (string * option rbdMappedEntry))
    (out : string) (rbdMap : gmap string (option rbdMappedEntry))
    (entries : list (string * rbdMappedEntry)) :
  Output ["rbd"; "showmapped"; "--format"; "json"] = (out, None) →
  Unmarshal out = (rbdMap, None) →
  rangeOrder rbdMap ≡ₚ map_to_list rbdMap →
  rangeOrder rbdMap = prod_map id Some <$> entries →
  ∃ devMap : gmap string string,
    GetMappedRBDs Output Unmarshal rangeOrder = Returns (Some devMap, None) ∧
    (∀ k e, rbdMap !! k = Some (Some e) → is_Some (devMap !! entryID e)) ∧
    (∀ i, is_Some (devMap !! i) →
          ∃ k e, rbdMap !! k = Some (Some e) ∧ entryID e = i) ∧
    (∀ l1 k e l2,
       entries = l1 ++ (k, e) :: l2 →
       (∀ k' e', (k', e') ∈ l2 → entryID e' ≠ entryID e) →
       devMap !! entryID e = Some (Device e)) ∧
    (∀ l1 k1 e1 l2 k2 e2 l3,
       entries = l1 ++ (k1, e1) :: l2 ++ (k2, e2) :: l3 →
       entryID e1 = entryID e2 →
       (∀ k' e', (k', e') ∈ l3 → entryID e' ≠ entryID e2) →
       devMap !! entryID e1 = Some (Device e2)).
Proof.
  intros Hout Hjson Hperm Hentries.
  assert (Hin : ∀ k e, rbdMap !! k = Some (Some e) ↔ (k, e) ∈ entries).
  { intros k e. rewrite <- elem_of_wrapped, <- Hentries, Hperm.
    by rewrite elem_of_map_to_list. }
  eexists. split; [|repeat apply conj].
  - unfold GetMappedRBDs, exec.Command, rbdCmd, formatOpt, jsonArg.
    rewrite Hout, Hjson, Hentries, GetMappedRBDs_loop_returns. reflexivity.
  - intros k e Hk. apply rekey_is_Some. right. exists k, e.
    by rewrite <- Hin.
  - intros i Hi. apply rekey_is_Some in Hi as [Hi|(k & e & Hke & Heq)].
    + rewrite lookup_empty in Hi. by destruct Hi.
    + exists k, e. by rewrite Hin.
  - intros l1 k e l2 -> Hne. by apply rekey_lookup_last.
  - intros l1 k1 e1 l2 k2 e2 l3 -> Heq Hne. rewrite Heq.
    rewrite app_comm_cons, app_assoc.
    by apply rekey_lookup_last.
Qed.

Lemma GetMappedRBDs_last_write_wins_witness :
  ∃ devMap : gmap string string,
    GetMappedRBDs
      (λ _, ("", None))
      (λ _, ({[ "0" := Some (mkEntry "/dev/rbd0" "b.c" "a" "-");
                "1" := Some (mkEntry "/dev/rbd1" "c" "a.b" "-") ]}, None))
      (λ _, [("0", Some (mkEntry "/dev/rbd0" "b.c" "a" "-"));
             ("1", Some (mkEntry "/dev/rbd1" "c" "a.b" "-"))])
    = Returns (Some devMap, None) ∧
    devMap !! "a.b.c" = Some "/dev/rbd1" ∧
    size devMap = 1%nat.
Proof.
  destruct (GetMappedRBDs_last_write_wins
      (λ _, ("", None))
      (λ _, ({[ "0" := Some (mkEntry "/dev/rbd0" "b.c" "a" "-");
                "1" := Some (mkEntry "/dev/rbd1" "c" "a.b" "-") ]}, None))
      (λ _, [("0", Some (mkEntry "/dev/rbd0" "b.c" "a" "-"));
             ("1", Some (mkEntry "/dev/rbd1" "c" "a.b" "-"))])
      ""
      {[ "0" := Some (mkEntry "/dev/rbd0" "b.c" "a" "-");
         "1" := Some (mkEntry "/dev/rbd1" "c" "a.b" "-") ]}
      [("0", mkEntry "/dev/rbd0" "b.c" "a" "-");
       ("1", mkEntry "/dev/rbd1" "c" "a.b" "-")])
    as (devMap & Hret & _ & _ & _ & Hlast).
  - reflexivity.
  - reflexivity.
  - vm_compute. apply perm_swap.
  - reflexivity.
  - exists devMap. split; [exact Hret|]. split.
    + apply (Hlast [] "0" (mkEntry "/dev/rbd0" "b.c" "a" "-") []
                   "1" (mkEntry "/dev/rbd1" "c" "a.b" "-") []).
      * reflexivity.
      * reflexivity.
      * intros k' e' Hin. by apply not_elem_of_nil in Hin.
    + vm_compute in Hret. injection Hret as <-. reflexivity.
Defined.

(** ** Regular expressions *)

Lemma append_assoc (a b c : string) : (a +:+ b) +:+ c = a +:+ b +:+ c.
Proof.
  induction a as [|x a IH]; [done|]. by rewrite !append_cons, IH.
Qed.

Lemma append_eq_empty (a b : string) : a +:+ b = "" → a = "" ∧ b = "".
Proof. destruct a; [done|discriminate]. Qed.

Lemma nullable_Matches (r : regexp.Regexp) :
  regexp.nullable r = true ↔ regexp.Matches r "".
Proof.
  split.
  - induction r as [| |p|r1 IH1 r2 IH2|r1 IH1 r2 IH2|r IH];
      cbn [regexp.nullable]; intros H; try discriminate.
    + constructor.
    + apply andb_true_iff in H as [H1 H2].
      apply (regexp.MatchesConcat r1 r2 "" ""); auto.
    + apply orb_true_iff in H as [H|H].
      * apply regexp.MatchesLeft; auto.
      * apply regexp.MatchesRight; auto.
    + constructor.
  - intros H. remember "" as s eqn:Hs.
    induction H as [|p c Hp|r1 r2 s1 s2 H1 IH1 H2 IH2|r1 r2 s H IH|r1 r2 s H IH
                   | r | r s1 s2 H1 IH1 H2 IH2];
      cbn [regexp.nullable]; try done.
    + apply append_eq_empty in Hs as [-> ->]. by rewrite IH1, IH2.
    + by rewrite IH.
    + rewrite IH by done. apply orb_true_r.
Qed.

Lemma deriv_Matches (c : ascii) (r : regexp.Regexp) (s : string) :
  regexp.Matches (regexp.deriv c r) s ↔ regexp.Matches r (String c s).
Proof.
  split.
  - revert s.
    induction r as [| |p|r1 IH1 r2 IH2|r1 IH1 r2 IH2|r IH]; intros s H;
      cbn [regexp.deriv] in H.
    + inversion H.
    + inversion H.
    + destruct (p c) eqn:Hp; inversion H; subst. by constructor.
    + destruct (regexp.nullable r1) eqn:Hnull.
      * inversion H as [| | | ? ? ? H'| ? ? ? H'| |]; subst.
        -- inversion H' as [| |? ? s1 s2 H1 H2| | | |]; subst.
           apply (regexp.MatchesConcat r1 r2 (String c s1) s2); auto.
        -- apply (regexp.MatchesConcat r1 r2 "" (String c s)); auto.
           by apply nullable_Matches.
      * inversion H as [| |? ? s1 s2 H1 H2| | | |]; subst.
        apply (regexp.MatchesConcat r1 r2 (String c s1) s2); auto.
    + inversion H; subst.
      * apply regexp.MatchesLeft; auto.
      * apply regexp.MatchesRight; auto.
    + inversion H as [| |? ? s1 s2 H1 H2| | | |]; subst.
      apply (regexp.MatchesStarApp r (String c s1) s2); auto.
  - intros H. remember (String c s) as t eqn:Ht. revert s Ht.
    induction H as [|p c' Hp|r1 r2 s1 s2 H1 IH1 H2 IH2|r1 r2 s' H IH
                   |r1 r2 s' H IH| r | r s1 s2 H1 IH1 H2 IH2];
      intros s Ht; cbn [regexp.deriv].
    + discriminate.
    + injection Ht as -> <-. rewrite Hp. constructor.
    + destruct s1 as [|c1 s1].
      * rewrite append_empty_l in Ht. subst s2.
        apply nullable_Matches in H1. rewrite H1.
        apply regexp.MatchesRight. by apply IH2.
      * rewrite append_cons in Ht. injection Ht as -> <-.
        destruct (regexp.nullable r1);
          [apply regexp.MatchesLeft|]; constructor; auto.
    + apply regexp.MatchesLeft. auto.
    + apply regexp.MatchesRight. auto.
    + discriminate.
    + destruct s1 as [|c1 s1].
      * rewrite append_empty_l in Ht. by apply IH2.
      * rewrite append_cons in Ht. injection Ht as -> <-.
        constructor; auto.
Qed.

(** The matcher decides [Matches]. *)
Lemma MatchString_Matches (r : regexp.Regexp) (s : string) :
  regexp.MatchString r s = true ↔ regexp.Matches r s.
Proof.
  revert r. induction s as [|c s IH]; intros r; cbn [regexp.MatchString].
  - apply nullable_Matches.
  - rewrite IH. apply deriv_Matches.
Qed.

Lemma Matches_CharClass (p : ascii → bool) (s : string) :
  regexp.Matches (regexp.CharClass p) s ↔ ∃ c, s = String c "" ∧ p c = true.
Proof.
  split.
  - intros H. inversion H; subst. eauto.
  - intros (c & -> & Hp). by constructor.
Qed.

Lemma Matches_Literal (c : ascii) (s : string) :
  regexp.Matches (regexp.Literal c) s ↔ s = String c "".
Proof.
  unfold regexp.Literal. rewrite Matches_CharClass. split.
  - intros (d & -> & Hd). apply Ascii.eqb_eq in Hd. by subst.
  - intros ->. exists c. split; [done|]. apply Ascii.eqb_refl.
Qed.

Lemma Matches_Star_CharClass (p : ascii → bool) (s : string) :
  regexp.Matches (regexp.Star (regexp.CharClass p)) s ↔ allBytes p s = true.
Proof.
  split.
  - intros H. remember (regexp.Star (regexp.CharClass p)) as r eqn:Hr.
    induction H as [| | | | | r' | r' s1 s2 H1 IH1 H2 IH2]; try discriminate.
    + done.
    + injection Hr as ->. apply Matches_CharClass in H1 as (c & -> & Hc).
      rewrite append_cons, append_empty_l. cbn [allBytes].
      rewrite Hc. by apply IH2.
  - induction s as [|c s IH]; cbn [allBytes]; intros H.
    + constructor.
    + apply andb_true_iff in H as [Hc Hs].
      apply (regexp.MatchesStarApp _ (String c "") s); [by constructor|auto].
Qed.

Lemma Matches_Concat (r1 r2 : regexp.Regexp) (s : string) :
  regexp.Matches (regexp.Concat r1 r2) s
  ↔ ∃ s1 s2, s = s1 +:+ s2 ∧ regexp.Matches r1 s1 ∧ regexp.Matches r2 s2.
Proof.
  split.
  - intros H. inversion H; subst. eauto.
  - intros (s1 & s2 & -> & H1 & H2). by constructor.
Qed.

(** What [ipv6wPortRX] matches: an opening bracket, bytes other than the
    line feed, a closing bracket, a colon, and one decimal digit or more. *)
Lemma ipv6wPortRX_Matches (addr : string) :
  regexp.MatchString ipv6wPortRX addr = true
  ↔ ∃ host port : string,
      addr = "[" +:+ host +:+ "]:" +:+ port ∧
      allBytes (λ c, negb (Ascii.eqb c "010")) host = true ∧
      port ≠ "" ∧ allBytes isDigit port = true.
Proof.
  rewrite MatchString_Matches. unfold ipv6wPortRX, regexp.Plus. split.
  - intros H.
    apply Matches_Concat in H as (s1 & t1 & -> & H1 & H).
    apply Matches_Concat in H as (host & t2 & -> & Hhost & H).
    apply Matches_Concat in H as (s3 & t3 & -> & H3 & H).
    apply Matches_Concat in H as (s4 & t4 & -> & H4 & H).
    apply Matches_Concat in H as (d & ds & -> & Hd & Hds).
    apply Matches_Literal in H1 as ->. apply Matches_Literal in H3 as ->.
    apply Matches_Literal in H4 as ->.
    apply Matches_Star_CharClass in Hhost.
    apply Matches_CharClass in Hd as (c & -> & Hc).
    apply Matches_Star_CharClass in Hds.
    exists host, (String c ds). repeat split; try done.
    cbn [allBytes]. by rewrite Hc, Hds.
  - intros (host & port & -> & Hhost & Hne & Hport).
    destruct port as [|c ds]; [done|]. cbn [allBytes] in Hport.
    apply andb_true_iff in Hport as [Hc Hds].
    apply (regexp.MatchesConcat _ _ "[" (host +:+ "]:" +:+ String c ds));
      [by apply Matches_Literal|].
    apply (regexp.MatchesConcat _ _ host ("]:" +:+ String c ds));
      [by apply Matches_Star_CharClass|].
    apply (regexp.MatchesConcat _ _ "]" (":" +:+ String c ds));
      [by apply Matches_Literal|].
    apply (regexp.MatchesConcat _ _ ":" (String c ds));
      [by apply Matches_Literal|].
    apply (regexp.MatchesConcat _ _ (String c "") ds).
    + by apply Matches_CharClass; eauto.
    + by apply Matches_Star_CharClass.
Qed.

(** ** Monitor addresses *)

(** The models of [net.ParseIP], [net.SplitHostPort] and [strings.Trim] on
    some addresses. *)
Example ParseIP_examples :
  net.ParseIP "10.0.0.1" = Some ip_10_0_0_1 ∧
  net.ParseIP "::1" = Some ip_loopback6 ∧
  net.ParseIP "2001:db8::68"
  = Some [0x20; 0x01; 0x0d; 0xb8; 0; 0; 0; 0; 0; 0; 0; 0; 0; 0; 0; 0x68] ∧
  net.ParseIP "::ffff:192.0.2.1" = Some (net.IPv4 192 0 2 1) ∧
  net.ParseIP "1:2:3:4:5:6:7:8"
  = Some [0; 1; 0; 2; 0; 3; 0; 4; 0; 5; 0; 6; 0; 7; 0; 8] ∧
  net.ParseIP "[::1]" = None ∧
  net.ParseIP "10.0.0" = None ∧
  net.ParseIP "256.0.0.1" = None ∧
  net.ParseIP "1:2:3:4:5:6:7:8:9" = None ∧
  net.ParseIP "1::2::3" = None ∧
  net.ParseIP "ceph-mon" = None.
Proof. vm_compute. repeat split. Qed.

Example SplitHostPort_examples :
  net.SplitHostPort "10.0.0.1:6789" = ("10.0.0.1", "6789", None) ∧
  net.SplitHostPort "[::1]:6789" = ("::1", "6789", None) ∧
  net.SplitHostPort "ceph-mon:6789" = ("ceph-mon", "6789", None) ∧
  net.SplitHostPort "::1"
  = ("", "", Some (AddrError "too many colons in address" "::1")) ∧
  net.SplitHostPort "[::1]"
  = ("", "", Some (AddrError "missing port in address" "[::1]")) ∧
  net.SplitHostPort "10.0.0.1"
  = ("", "", Some (AddrError "missing port in address" "10.0.0.1")).
Proof. vm_compute. repeat split. Qed.

Example Trim_examples :
  strings.Trim "[::1]" "[]" = "::1" ∧
  strings.Trim "[[fe80::1]]" "[]" = "fe80::1" ∧
  strings.Trim "[a]b]" "[]" = "a]b" ∧
  strings.Trim "[]" "[]" = "".
Proof. vm_compute. repeat split. Qed.

Example hasPort_examples :
  hasPort "10.0.0.1" = false ∧
  hasPort "10.0.0.1:6789" = true ∧
  hasPort "[::1]" = false ∧
  hasPort "[::1]:6789" = true ∧
  hasPort "[::1]:" = false ∧
  hasPort "[::1]:http" = false ∧
  hasPort "::1" = true.
Proof. vm_compute. repeat split. Qed.

Lemma Contains_colon (addr : string) :
  strings.Contains addr ":" = true ↔ ∃ a b : string, addr = a +:+ ":" +:+ b.
Proof.
  induction addr as [|c s IH].
  - split; [discriminate|]. intros ([|x a] & b & H); discriminate H.
  - cbn [strings.Contains String.prefix]. rewrite orb_true_iff, IH. split.
    + intros [H|(a & b & ->)].
      * destruct (ascii_dec ":" c) as [<-|]; [|discriminate].
        by exists "", s.
      * by exists (String c a), b.
    + intros ([|x a] & b & H).
      * rewrite append_empty_l in H. injection H as -> ->. left.
        destruct (ascii_dec ":" ":"); [|done]. by destruct b.
      * rewrite append_cons in H. injection H as -> ->. right. by exists a, b.
Qed.

(** *** Splitting host and port *)

Lemma length_append (a b : string) :
  String.length (a +:+ b) = (String.length a + String.length b)%nat.
Proof.
  induction a as [|c a IH]; [done|].
  rewrite append_cons. cbn [String.length]. by rewrite IH.
Qed.

Lemma allBytes_append (p : ascii → bool) (a b : string) :
  allBytes p (a +:+ b) = allBytes p a && allBytes p b.
Proof.
  induction a as [|c a IH]; [done|].
  rewrite append_cons. cbn [allBytes]. by rewrite IH, andb_assoc.
Qed.

Lemma allBytes_impl (p q : ascii → bool) (s : string) :
  (∀ c, p c = true → q c = true) →
  allBytes p s = true → allBytes q s = true.
Proof.
  intros Hpq. induction s as [|c s IH]; [done|]. cbn [allBytes].
  rewrite !andb_true_iff. intros [Hc Hs]. auto.
Qed.

Lemma IndexByte_None (s : string) (d : ascii) :
  allBytes (λ c, negb (Ascii.eqb c d)) s = true → bytes.IndexByte s d = None.
Proof.
  induction s as [|c s IH]; [done|]. cbn [allBytes bytes.IndexByte].
  rewrite andb_true_iff, negb_true_iff. intros [-> Hs]. by rewrite IH.
Qed.

Lemma IndexByte_append (a b : string) (d : ascii) :
  allBytes (λ c, negb (Ascii.eqb c d)) a = true →
  bytes.IndexByte (a +:+ String d b) d = Some (String.length a).
Proof.
  induction a as [|c a IH].
  - intros _. rewrite append_empty_l. cbn [bytes.IndexByte].
    by rewrite Ascii.eqb_refl.
  - cbn [allBytes]. rewrite andb_true_iff, negb_true_iff. intros [Hc Ha].
    rewrite append_cons. cbn [bytes.IndexByte String.length].
    by rewrite Hc, IH.
Qed.

Lemma last_None (s : string) (d : ascii) :
  allBytes (λ c, negb (Ascii.eqb c d)) s = true → net.last s d = None.
Proof.
  induction s as [|c s IH]; [done|]. cbn [allBytes net.last].
  rewrite andb_true_iff, negb_true_iff. intros [-> Hs]. by rewrite IH.
Qed.

Lemma last_append (a b : string) (d : ascii) :
  allBytes (λ c, negb (Ascii.eqb c d)) b = true →
  net.last (a +:+ String d b) d = Some (String.length a).
Proof.
  intros Hb. induction a as [|c a IH].
  - rewrite append_empty_l. cbn [net.last].
    by rewrite (last_None b d Hb), Ascii.eqb_refl.
  - rewrite append_cons. cbn [net.last String.length]. by rewrite IH.
Qed.

Lemma sliceTo_append (a b : string) : sliceTo (a +:+ b) (String.length a) = a.
Proof.
  induction a as [|c a IH]; [done|].
  rewrite append_cons. cbn [String.length sliceTo]. by rewrite IH.
Qed.

Lemma sliceFrom_append (a b : string) :
  sliceFrom (a +:+ b) (String.length a) = b.
Proof.
  induction a as [|c a IH]; [done|].
  rewrite append_cons. cbn [String.length sliceFrom]. exact IH.
Qed.

Lemma sliceFrom_0 (s : string) : sliceFrom s 0 = s.
Proof. done. Qed.

Lemma sliceFrom_cons (c : ascii) (s : string) (n : nat) :
  sliceFrom (String c s) (S n) = sliceFrom s n.
Proof. done. Qed.

(** The bytes that are not in a set of bytes. *)
Lemma allBytes_not_inCutset (cutset : string) (d : ascii) (s : string) :
  strings.inCutset d cutset = true →
  allBytes (λ c, negb (strings.inCutset c cutset)) s = true →
  allBytes (λ c, negb (Ascii.eqb c d)) s = true.
Proof.
  intros Hd. apply allBytes_impl. intros c Hc.
  apply negb_true_iff in Hc. apply negb_true_iff.
  destruct (Ascii.eqb_spec c d) as [->|]; [congruence|done].
Qed.

(** [SplitHostPort] on "host:port". *)
Lemma SplitHostPort_host_port (host port : string) :
  allBytes (λ c, negb (strings.inCutset c ":[]%")) host = true →
  allBytes (λ c, negb (strings.inCutset c ":[]")) port = true →
  net.SplitHostPort (host +:+ ":" +:+ port) = (host, port, None).
Proof.
  intros Hhost Hport.
  pose proof (allBytes_not_inCutset ":[]%" ":" host eq_refl Hhost) as Hh1.
  pose proof (allBytes_not_inCutset ":[]%" "[" host eq_refl Hhost) as Hh2.
  pose proof (allBytes_not_inCutset ":[]%" "]" host eq_refl Hhost) as Hh3.
  pose proof (allBytes_not_inCutset ":[]%" "%" host eq_refl Hhost) as Hh4.
  pose proof (allBytes_not_inCutset ":[]" ":" port eq_refl Hport) as Hp1.
  pose proof (allBytes_not_inCutset ":[]" "[" port eq_refl Hport) as Hp2.
  pose proof (allBytes_not_inCutset ":[]" "]" port eq_refl Hport) as Hp3.
  change (":" +:+ port) with (String ":" port).
  unfold net.SplitHostPort. rewrite (last_append host port ":" Hp1).
  assert (net.byteIs (host +:+ String ":" port) 0 "[" = false) as ->.
  { destruct host as [|c host]; [done|].
    cbn [allBytes] in Hh2. apply andb_true_iff in Hh2 as [Hc _].
    apply negb_true_iff in Hc. rewrite append_cons.
    unfold net.byteIs. cbn [String.get]. exact Hc. }
  rewrite sliceTo_append. unfold net.byteIndex.
  rewrite (IndexByte_None host ":" Hh1), (IndexByte_None host "%" Hh4).
  rewrite sliceFrom_0.
  rewrite (IndexByte_None (host +:+ String ":" port) "[")
    by (rewrite allBytes_append; cbn [allBytes]; by rewrite Hh2, Hp2).
  rewrite (IndexByte_None (host +:+ String ":" port) "]")
    by (rewrite allBytes_append; cbn [allBytes]; by rewrite Hh3, Hp3).
  cbn [bool_decide decide_rel is_Some_dec].
  replace (host +:+ String ":" port) with ((host +:+ ":") +:+ port)
    by (by rewrite append_assoc).
  replace (String.length host + 1)%nat with (String.length (host +:+ ":"))
    by (rewrite length_append; done).
  by rewrite sliceFrom_append.
Qed.

Lemma isDigit_not (d : ascii) (s : string) :
  isDigit d = false →
  allBytes isDigit s = true → allBytes (λ c, negb (Ascii.eqb c d)) s = true.
Proof.
  intros Hd. apply allBytes_impl. intros c Hc. apply negb_true_iff.
  destruct (Ascii.eqb_spec c d) as [->|]; [congruence|done].
Qed.

(** [SplitHostPort] on "[host]:port". *)
Lemma SplitHostPort_bracketed (host port : string) :
  allBytes (λ c, negb (strings.inCutset c "[]")) host = true →
  allBytes isDigit port = true →
  net.SplitHostPort ("[" +:+ host +:+ "]:" +:+ port) = (host, port, None).
Proof.
  intros Hhost Hport.
  pose proof (allBytes_not_inCutset "[]" "[" host eq_refl Hhost) as Hh2.
  pose proof (allBytes_not_inCutset "[]" "]" host eq_refl Hhost) as Hh3.
  pose proof (isDigit_not ":" port eq_refl Hport) as Hp1.
  pose proof (isDigit_not "[" port eq_refl Hport) as Hp2.
  pose proof (isDigit_not "]" port eq_refl Hport) as Hp3.
  change ("[" +:+ host +:+ "]:" +:+ port)
    with (String "[" (host +:+ String "]" (String ":" port))).
  assert (Hlast : net.last (host +:+ String "]" (String ":" port)) ":"
                  = Some (String.length host + 1)%nat).
  { replace (host +:+ String "]" (String ":" port))
      with ((host +:+ "]") +:+ String ":" port) by (by rewrite append_assoc).
    rewrite (last_append _ port ":" Hp1). by rewrite length_append. }
  assert (Hlen : String.length (host +:+ String "]" (String ":" port))
                 = (String.length host + 2 + String.length port)%nat).
  { rewrite length_append. cbn [String.length]. lia. }
  unfold net.SplitHostPort. cbn [net.last]. rewrite Hlast.
  unfold net.byteIs at 1. cbn [String.get]. rewrite Ascii.eqb_refl.
  unfold net.byteIndex. cbn [bytes.IndexByte].
  replace (Ascii.eqb "[" "]") with false by done.
  rewrite (IndexByte_append host (String ":" port) "]" Hh3).
  cbn [fmap option_fmap option_map String.length].
  rewrite Hlen.
  destruct (Nat.eqb_spec (S (String.length host) + 1)
              (S (String.length host + 2 + String.length port))) as [E|_];
    [lia|].
  destruct (Nat.eqb_spec (S (String.length host) + 1)
              (S (String.length host + 1))) as [_|E]; [|lia].
  cbn [sliceFrom]. replace (S (String.length host) - 1)%nat
    with (String.length host) by lia.
  rewrite sliceTo_append.
  rewrite (IndexByte_None (host +:+ String "]" (String ":" port)) "[")
    by (rewrite allBytes_append; cbn [allBytes]; by rewrite Hh2, Hp2).
  replace (S (String.length host) + 1)%nat with (S (S (String.length host)))
    by lia.
  replace (S (String.length host + 1) + 1)%nat
    with (S (S (S (String.length host)))) by lia.
  rewrite !sliceFrom_cons.
  replace (host +:+ String "]" (String ":" port))
    with (host +:+ "]" +:+ String ":" port) by done.
  assert (Hfrom : ∀ t, sliceFrom (host +:+ "]" +:+ t) (S (String.length host))
                       = t).
  { intros t. replace (host +:+ "]" +:+ t) with ((host +:+ "]") +:+ t)
      by (by rewrite append_assoc).
    replace (S (String.length host)) with (String.length (host +:+ "]"))
      by (rewrite length_append; cbn [String.length]; lia).
    apply sliceFrom_append. }
  assert (Hfrom2 : sliceFrom (host +:+ "]" +:+ String ":" port)
                     (S (S (String.length host))) = port).
  { replace (host +:+ "]" +:+ String ":" port) with ((host +:+ "]:") +:+ port)
      by (by rewrite append_assoc).
    replace (S (S (String.length host))) with (String.length (host +:+ "]:"))
      by (rewrite length_append; cbn [String.length]; lia).
    apply sliceFrom_append. }
  rewrite Hfrom, Hfrom2. cbn [bytes.IndexByte].
  replace (Ascii.eqb ":" "]") with false by done.
  by rewrite (IndexByte_None port "]" Hp3).
Qed.

Lemma HasPrefix_bracket (s : string) :
  strings.HasPrefix s "[" = net.byteIs s 0 "[".
Proof.
  destruct s as [|c s]; [done|].
  unfold strings.HasPrefix, net.byteIs. cbn [String.prefix String.get].
  destruct (ascii_dec "[" c) as [<-|Hne].
  - by destruct s.
  - symmetry. apply Ascii.eqb_neq. congruence.
Qed.

Lemma HasPrefix_bracket_append (host t : string) :
  allBytes (λ c, negb (Ascii.eqb c "[")) host = true →
  strings.HasPrefix t "[" = false →
  strings.HasPrefix (host +:+ t) "[" = false.
Proof.
  intros Hhost Ht. destruct host as [|c host]; [done|].
  rewrite append_cons, HasPrefix_bracket. unfold net.byteIs.
  cbn [String.get allBytes] in *.
  apply andb_true_iff in Hhost as [Hc _]. by apply negb_true_iff.
Qed.

(** A literal address alone, one with a port, and one in brackets with a
    port: the resolver is not asked. *)
Lemma ParseMonitorAddresses_bare
    (LookupIP : string → list net.IP * option error)
    (host : string) (ip : net.IP) :
  net.ParseIP host = Some ip →
  hasPort host = false →
  strings.HasPrefix host "[" = false →
  ParseMonitorAddresses LookupIP [host] = (Some [ip], None).
Proof.
  intros Hip Hport Hpfx.
  unfold ParseMonitorAddresses. cbn [ParseMonitorAddresses_loop].
  by rewrite Hport, Hpfx, Hip.
Qed.

Lemma ParseMonitorAddresses_host_port
    (LookupIP : string → list net.IP * option error)
    (host port : string) (ip : net.IP) :
  net.ParseIP host = Some ip →
  allBytes (λ c, negb (strings.inCutset c ":[]%")) host = true →
  allBytes (λ c, negb (strings.inCutset c ":[]")) port = true →
  ParseMonitorAddresses LookupIP [host +:+ ":" +:+ port] = (Some [ip], None).
Proof.
  intros Hip Hhost Hportok.
  pose proof (allBytes_not_inCutset ":[]%" "[" host eq_refl Hhost) as Hh.
  assert (Hport : hasPort (host +:+ ":" +:+ port) = true).
  { unfold hasPort. rewrite (HasPrefix_bracket_append host _ Hh) by done.
    apply Contains_colon. by exists host, port. }
  unfold ParseMonitorAddresses. cbn [ParseMonitorAddresses_loop].
  rewrite Hport, (SplitHostPort_host_port host port Hhost Hportok).
  replace (strings.HasPrefix host "[") with false.
  - by rewrite Hip.
  - symmetry. rewrite <- (append_empty_r host) at 1.
    by apply HasPrefix_bracket_append.
Qed.

Lemma ParseMonitorAddresses_bracketed_port
    (LookupIP : string → list net.IP * option error)
    (host port : string) (ip : net.IP) :
  net.ParseIP host = Some ip →
  allBytes (λ c, negb (strings.inCutset c "[]")) host = true →
  allBytes (λ c, negb (Ascii.eqb c "010")) host = true →
  port ≠ "" →
  allBytes isDigit port = true →
  ParseMonitorAddresses LookupIP ["[" +:+ host +:+ "]:" +:+ port]
  = (Some [ip], None).
Proof.
  intros Hip Hhost Hnl Hne Hdigits.
  pose proof (allBytes_not_inCutset "[]" "[" host eq_refl Hhost) as Hh.
  assert (Hport : hasPort ("[" +:+ host +:+ "]:" +:+ port) = true).
  { unfold hasPort.
    replace (strings.HasPrefix ("[" +:+ host +:+ "]:" +:+ port) "[")
      with true by (by destruct (host +:+ "]:" +:+ port)).
    apply ipv6wPortRX_Matches. by exists host, port. }
  unfold ParseMonitorAddresses. cbn [ParseMonitorAddresses_loop].
  rewrite Hport, (SplitHostPort_bracketed host port Hhost Hdigits).
  replace (strings.HasPrefix host "[") with false.
  - by rewrite Hip.
  - symmetry. rewrite <- (append_empty_r host) at 1.
    by apply HasPrefix_bracket_append.
Qed.

(** C5: on literal addresses the normalizer drops the port and the
    brackets and returns the parsed address, whatever the resolver: for a
    literal alone, for "host:port" and for "[host]:port".  So ["10.0.0.1"]
    and ["10.0.0.1:6789"] give 10.0.0.1, and ["[::1]:6789"] gives ::1.  The
    detection of the port takes a string that starts with ["["] to have a
    port exactly when it matches [\[.*\]:\d+] as a whole, and any other
    string exactly when it has a [":"] somewhere. *)
Theorem ParseMonitorAddresses_literal :
  (∀ LookupIP (host : string) (ip : net.IP),
     net.ParseIP host = Some ip →
     hasPort host = false →
     strings.HasPrefix host "[" = false →
     ParseMonitorAddresses LookupIP [host] = (Some [ip], None)) ∧
  (∀ LookupIP (host port : string) (ip : net.IP),
     net.ParseIP host = Some ip →
     allBytes (λ c, negb (strings.inCutset c ":[]%")) host = true →
     allBytes (λ c, negb (strings.inCutset c ":[]")) port = true →
     ParseMonitorAddresses LookupIP [host +:+ ":" +:+ port]
     = (Some [ip], None)) ∧
  (∀ LookupIP (host port : string) (ip : net.IP),
     net.ParseIP host = Some ip →
     allBytes (λ c, negb (strings.inCutset c "[]")) host = true →
     allBytes (λ c, negb (Ascii.eqb c "010")) host = true →
     port ≠ "" →
     allBytes isDigit port = true →
     ParseMonitorAddresses LookupIP ["[" +:+ host +:+ "]:" +:+ port]
     = (Some [ip], None)) ∧
  (∀ LookupIP,
     ParseMonitorAddresses LookupIP ["10.0.0.1"] = (Some [ip_10_0_0_1], None)) ∧
  (∀ LookupIP,
     ParseMonitorAddresses LookupIP ["10.0.0.1:6789"]
     = (Some [ip_10_0_0_1], None)) ∧
  (∀ LookupIP,
     ParseMonitorAddresses LookupIP ["[::1]:6789"]
     = (Some [ip_loopback6], None)) ∧
  (∀ addr : string,
     strings.HasPrefix addr "[" = true →
     (hasPort addr = true
      ↔ ∃ host port : string,
          addr = "[" +:+ host +:+ "]:" +:+ port ∧
          allBytes (λ c, negb (Ascii.eqb c "010")) host = true ∧
          port ≠ "" ∧ allBytes isDigit port = true)) ∧
  (∀ addr : string,
     strings.HasPrefix addr "[" = false →
     (hasPort addr = true ↔ ∃ a b : string, addr = a +:+ ":" +:+ b)).
Proof.
  repeat apply conj.
  - apply ParseMonitorAddresses_bare.
  - apply ParseMonitorAddresses_host_port.
  - apply ParseMonitorAddresses_bracketed_port.
  - intros LookupIP. by apply ParseMonitorAddresses_bare.
  - intros LookupIP.
    by apply (ParseMonitorAddresses_host_port LookupIP "10.0.0.1" "6789").
  - intros LookupIP.
    by apply (ParseMonitorAddresses_bracketed_port LookupIP "::1" "6789").
  - intros addr Hpfx. unfold hasPort. rewrite Hpfx.
    apply ipv6wPortRX_Matches.
  - intros addr Hpfx. unfold hasPort. rewrite Hpfx. apply Contains_colon.
Qed.

Lemma ParseMonitorAddresses_literal_witness :
  ParseMonitorAddresses (λ host, ([], Some (DNSError "no such host" host)))
    ["192.168.1.10"]
  = (Some [net.IPv4 192 168 1 10], None) ∧
  ParseMonitorAddresses (λ host, ([], Some (DNSError "no such host" host)))
    ["192.168.1.10:3300"]
  = (Some [net.IPv4 192 168 1 10], None) ∧
  ParseMonitorAddresses (λ host, ([], Some (DNSError "no such host" host)))
    ["[fe80::1]:3300"]
  = (Some [[0xfe; 0x80; 0; 0; 0; 0; 0; 0; 0; 0; 0; 0; 0; 0; 0; 1]], None) ∧
  (hasPort "[::1]:6789" = true
   ↔ ∃ host port : string,
       "[::1]:6789" = "[" +:+ host +:+ "]:" +:+ port ∧
       allBytes (λ c, negb (Ascii.eqb c "010")) host = true ∧
       port ≠ "" ∧ allBytes isDigit port = true) ∧
  (hasPort "10.0.0.1:6789" = true
   ↔ ∃ a b : string, "10.0.0.1:6789" = a +:+ ":" +:+ b).
Proof.
  pose proof ParseMonitorAddresses_literal
    as (Hbare & Hport & Hbracket & _ & _ & _ & Hrx & Hcolon).
  split; [|split; [|split; [|split]]].
  - apply (Hbare _ "192.168.1.10"); reflexivity.
  - apply (Hport _ "192.168.1.10" "3300"); reflexivity.
  - apply (Hbracket _ "fe80::1" "3300"); [reflexivity..|discriminate|reflexivity].
  - apply (Hrx "[::1]:6789"). reflexivity.
  - apply (Hcolon "10.0.0.1:6789"). reflexivity.
Defined.

(** C4, as the code has it: a bracketed IPv6 literal without a port is
    accepted.  No port is detected for ["[::1]"], the brackets are pulled
    off and the address ::1 is returned, with no error. *)
Theorem ParseMonitorAddresses_bracketed_no_port :
  hasPort "[::1]" = false ∧
  ∀ LookupIP,
    ParseMonitorAddresses LookupIP ["[::1]"] = (Some [ip_loopback6], None).
Proof. split; [reflexivity|]. intros LookupIP. vm_compute. reflexivity. Qed.

(** C4, as the specification has it, fails: even with a resolver that
    knows no name, [ParseMonitorAddresses] returns no error on
    ["[::1]"]. *)
Lemma ParseMonitorAddresses_bracketed_no_port_no_error :
  ¬ ∃ e : error,
      snd (ParseMonitorAddresses
             (λ host, ([], Some (DNSError "no such host" host))) ["[::1]"])
      = Some e.
Proof. intros [e He]. vm_compute in He. discriminate He. Qed.

(** One turn of the loop either returns an error and no addresses, or goes
    on with the rest of [addrs]; it returns the error when the entry
    fails. *)
Lemma ParseMonitorAddresses_loop_cons
    (LookupIP : string → list net.IP * option error)
    (mon : string) (addrs : list string) (monIps : list net.IP) :
  (∃ e, ParseMonitorAddresses_loop LookupIP (mon :: addrs) monIps
        = (None, Some e)) ∨
  (¬ entryFails LookupIP mon ∧
   ∃ monIps', ParseMonitorAddresses_loop LookupIP (mon :: addrs) monIps
              = ParseMonitorAddresses_loop LookupIP addrs monIps').
Proof.
  cbn [ParseMonitorAddresses_loop]. unfold entryFails.
  destruct (hasPort mon) eqn:Hport.
  - destruct (net.SplitHostPort mon) as [[host0 port] [e|]] eqn:Hsplit;
      [left; by exists e|].
    destruct (net.ParseIP _) as [ip|] eqn:Hip.
    + right. split; [|by eexists].
      intros [(_ & e & He)|(h & [(_ & p & Hh)|(Hf & _)] & Hip' & _)];
        [discriminate He| |discriminate Hf].
      injection Hh as <- _. cbn zeta in Hip'. congruence.
    + destruct (LookupIP _) as [ips [e|]] eqn:Hlookup; [left; by exists e|].
      right. split; [|destruct (Nat.ltb 0 (length ips)); by eexists].
      intros [(_ & e & He)|(h & [(_ & p & Hh)|(Hf & _)] & _ & e & He)];
        [discriminate He| |discriminate Hf].
      injection Hh as <- _. cbn zeta in He. rewrite Hlookup in He.
      discriminate He.
  - destruct (net.ParseIP _) as [ip|] eqn:Hip.
    + right. split; [|by eexists].
      intros [(Hf & _)|(h & [(Hf & _)|(_ & ->)] & Hip' & _)];
        [discriminate Hf|discriminate Hf|].
      cbn zeta in Hip'. congruence.
    + destruct (LookupIP _) as [ips [e|]] eqn:Hlookup; [left; by exists e|].
      right. split; [|destruct (Nat.ltb 0 (length ips)); by eexists].
      intros [(Hf & _)|(h & [(Hf & _)|(_ & ->)] & _ & e & He)];
        [discriminate Hf|discriminate Hf|].
      cbn zeta in He. rewrite Hlookup in He. discriminate He.
Qed.

Lemma ParseMonitorAddresses_loop_fails
    (LookupIP : string → list net.IP * option error)
    (addrs : list string) (monIps : list net.IP) :
  (∃ mon, mon ∈ addrs ∧ entryFails LookupIP mon) →
  ∃ e, ParseMonitorAddresses_loop LookupIP addrs monIps = (None, Some e).
Proof.
  revert monIps. induction addrs as [|mon addrs IH];
    intros monIps (bad & Hin & Hbad).
  - by apply not_elem_of_nil in Hin.
  - destruct (ParseMonitorAddresses_loop_cons LookupIP mon addrs monIps)
      as [He|(Hok & monIps' & ->)]; [exact He|].
    apply IH. exists bad. split; [|exact Hbad].
    apply elem_of_cons in Hin as [->|Hin]; [by destruct Hok|exact Hin].
Qed.

(** C6: whatever the addresses, when the splitting of host and port or
    the resolution of the name fails for one of them, the call returns an
    error and a nil slice: the addresses found for the entries before it
    are not returned. *)
Theorem ParseMonitorAddresses_fail_fast
    (LookupIP : string → list net.IP * option error)
    (addrs : list string) (mon : string) :
  mon ∈ addrs →
  entryFails LookupIP mon →
  ∃ e : error, ParseMonitorAddresses LookupIP addrs = (None, Some e).
Proof.
  intros Hin Hbad. apply ParseMonitorAddresses_loop_fails. by exists mon.
Qed.

Lemma ParseMonitorAddresses_fail_fast_witness :
  ∃ e : error,
    ParseMonitorAddresses
      (λ host, ([], Some (DNSError "no such host" host)))
      ["10.0.0.1"; "ceph-mon:6789"; "10.0.0.2"]
    = (None, Some e).
Proof.
  apply (ParseMonitorAddresses_fail_fast
           (λ host, ([], Some (DNSError "no such host" host)))
           ["10.0.0.1"; "ceph-mon:6789"; "10.0.0.2"] "ceph-mon:6789").
  - right. left.
  - right. exists "ceph-mon". split.
    + left. split; [reflexivity|]. by exists "6789".
    + split; [reflexivity|]. by eexists.
Defined.

(** * Further properties of the driver *)

(** ** Describe image: the other returns *)

Lemma ExitStatus_exit_code (code : Z) :
  0 <= code <= 255 → syscall.ExitStatus (Z.shiftl code 8) = code.
Proof.
  intros Hcode. unfold syscall.ExitStatus, syscall.Exited, syscall.mask,
    syscall.exited, syscall.shift.
  change 127 with (Z.ones 7). change 255 with (Z.ones 8).
  rewrite !Z.land_ones by lia. rewrite Z.shiftr_shiftl_l by lia.
  change (8 - 8) with 0. rewrite Z.shiftl_0_r.
  rewrite Z.shiftl_mul_pow2 by lia.
  replace (code * 2 ^ 8) with ((code * 2) * 2 ^ 7) by lia.
  rewrite Z.mod_mul by lia. cbn [Z.eqb negb].
  apply Z.mod_small. lia.
Qed.

Lemma ExitStatus_signaled (w : Z) :
  Z.land w 0x7F ≠ 0 → syscall.ExitStatus w = -1.
Proof.
  intros Hsig. unfold syscall.ExitStatus, syscall.Exited, syscall.mask,
    syscall.exited.
  destruct (Z.eqb_spec (Z.land w 127) 0); [done|reflexivity].
Qed.

Lemma Sprintf_rbd_info (stderr : string) :
  fmt.Sprintf "Unable to get rbd info: %s" [stderr]
  = "Unable to get rbd info: " +:+ stderr.
Proof. cbn [fmt.Sprintf]. by rewrite append_empty_r. Qed.

(** X1: [GetRBDInfo] returns a nil image and a nil error in one case
    only, the [rbd info] command ending with exit status 2; and it never
    returns an image together with an error. *)
Theorem GetRBDInfo_not_found_iff
    (Output : list string → string * option error)
    (Unmarshal : string → RBDInfo * option error)
    (pool name : string) :
  (GetRBDInfo Output Unmarshal pool name = (None, None)
   ↔ ∃ (out stderr : string) (status : syscall.WaitStatus),
       Output ["rbd"; "info"; "-p"; pool; name; "--format"; "json"]
       = (out, Some (ExitError (Some status) stderr)) ∧
       syscall.ExitStatus status = 2) ∧
  (∀ info e, GetRBDInfo Output Unmarshal pool name ≠ (Some info, Some e)).
Proof.
  unfold GetRBDInfo, exec.Command, rbdCmd, formatOpt, jsonArg.
  destruct (Output _) as [out [[[status|] stderr| | | | | |]|]]; cbn.
  all: try (split; [split; [discriminate|intros (? & ? & ? & [=] & _)]
                   |discriminate]).
  - destruct (Z.eqb_spec (syscall.ExitStatus status) 2) as [Heq|Hne].
    + split; [|discriminate]. split; [|done]. intros _.
      by exists out, stderr, status.
    + split; [|discriminate]. split; [discriminate|].
      intros (? & ? & ? & [= _ <- _] & Heq). done.
  - destruct (Unmarshal out) as [info [e|]]; cbn;
      (split; [split; [discriminate|intros (? & ? & ? & [=] & _)]
              |discriminate]).
Qed.

(** X2: when the [rbd info] command exits with a code other than 2, or
    is killed by a signal, [GetRBDInfo] returns a nil image and an error
    whose message is ["Unable to get rbd info: "] followed by the standard
    error of the command, unchanged. *)
Theorem GetRBDInfo_exit_error
    (Output : list string → string * option error)
    (Unmarshal : string → RBDInfo * option error)
    (pool name out stderr : string) (status : syscall.WaitStatus) :
  Output ["rbd"; "info"; "-p"; pool; name; "--format"; "json"]
    = (out, Some (ExitError (Some status) stderr)) →
  (∃ code, 0 <= code <= 255 ∧ code ≠ 2 ∧ status = Z.shiftl code 8) ∨
  Z.land status 0x7F ≠ 0 →
  GetRBDInfo Output Unmarshal pool name
  = (None, Some (goof_New ("Unable to get rbd info: " +:+ stderr))).
Proof.
  intros Hout Hstatus.
  assert (Hne : syscall.ExitStatus status ≠ 2).
  { destruct Hstatus as [(code & Hcode & Hne & ->)|Hsig].
    - by rewrite ExitStatus_exit_code.
    - by rewrite ExitStatus_signaled. }
  unfold GetRBDInfo, exec.Command, rbdCmd, formatOpt, jsonArg.
  rewrite Hout. destruct (Z.eqb_spec (syscall.ExitStatus status) 2); [done|].
  by rewrite Sprintf_rbd_info.
Qed.

Lemma GetRBDInfo_exit_error_witness :
  GetRBDInfo
    (λ _, ("", Some (ExitError (Some 256) "rbd: error: %s not permitted")))
    (λ _, (mkRBDInfo "" 0 0 0 0 "" 0 [] "", None))
    "rbd" "vol1"
  = (None, Some (goof_New "Unable to get rbd info: rbd: error: %s not permitted")).
Proof.
  apply (GetRBDInfo_exit_error _ _ "rbd" "vol1" ""
           "rbd: error: %s not permitted" 256).
  - reflexivity.
  - left. exists 1. repeat split; [lia|lia|lia].
Defined.

(** X3: whenever [GetRBDInfo] returns an image, the command succeeded,
    its output was decoded, the pool of the image is the pool of the call
    (whatever the decoded text says) and the other fields are the decoded
    ones. *)
Theorem GetRBDInfo_pool
    (Output : list string → string * option error)
    (Unmarshal : string → RBDInfo * option error)
    (pool name : string) (info : RBDInfo) (err : option error) :
  GetRBDInfo Output Unmarshal pool name = (Some info, err) →
  err = None ∧ RBDInfo_Pool info = pool ∧
  ∃ (out : string) (decoded : RBDInfo),
    Output ["rbd"; "info"; "-p"; pool; name; "--format"; "json"] = (out, None) ∧
    Unmarshal out = (decoded, None) ∧
    RBDInfo_Name info = RBDInfo_Name decoded ∧
    RBDInfo_Size info = RBDInfo_Size decoded ∧
    RBDInfo_Objects info = RBDInfo_Objects decoded ∧
    RBDInfo_Order info = RBDInfo_Order decoded ∧
    RBDInfo_ObjectSize info = RBDInfo_ObjectSize decoded ∧
    RBDInfo_BlockNamePrefix info = RBDInfo_BlockNamePrefix decoded ∧
    RBDInfo_Format info = RBDInfo_Format decoded ∧
    RBDInfo_Features info = RBDInfo_Features decoded.
Proof.
  unfold GetRBDInfo, exec.Command, rbdCmd, formatOpt, jsonArg.
  destruct (Output _) as [out [[[status|] stderr| | | | | |]|]]; cbn;
    try discriminate.
  - destruct (Z.eqb _ _); discriminate.
  - destruct (Unmarshal out) as [decoded [e|]] eqn:Hjson; cbn;
      [discriminate|].
    intros [= <- <-]. repeat split. by exists out, decoded.
Qed.

Lemma GetRBDInfo_pool_witness :
  RBDInfo_Pool (mkRBDInfo "vol1" 1024 1 22 4194304 "rbd_data.1" 2 ["layering"] "rbd")
  = "rbd".
Proof.
  apply (GetRBDInfo_pool
           (λ _, ("{}", None))
           (λ _, (mkRBDInfo "vol1" 1024 1 22 4194304 "rbd_data.1" 2
                    ["layering"] "other", None))
           "rbd" "vol1" _ None).
  reflexivity.
Defined.

(** ** Listing the images *)

Lemma GetRBDImages_loop_returns (imgs : list RBDImage) (pool : string) :
  GetRBDImages_loop (Some <$> imgs) pool
  = Returns (Some <$> ((λ img, set_RBDImage_Pool img pool) <$> imgs)).
Proof.
  induction imgs as [|img imgs IH]; [done|].
  rewrite !fmap_cons. cbn [GetRBDImages_loop]. by rewrite IH.
Qed.

Lemma GetRBDImages_loop_panics (rbdList : list (option RBDImage)) (pool : string) :
  None ∈ rbdList → ∃ msg, GetRBDImages_loop rbdList pool = Panics msg.
Proof.
  induction rbdList as [|[img|] rbdList IH]; intros Hin.
  - by apply not_elem_of_nil in Hin.
  - apply elem_of_cons in Hin as [[=]|Hin].
    destruct (IH Hin) as [msg Hmsg]. exists msg.
    cbn [GetRBDImages_loop]. by rewrite Hmsg.
  - by eexists.
Qed.

(** X4: when the [rbd ls] command succeeds and its output decodes to a
    list of images, [GetRBDImages] returns as many images, in the same
    order, each with the pool of the call as its pool and with the name,
    the size and the format that were decoded. *)
Theorem GetRBDImages_pool
    (Output : list string → string * option error)
    (Unmarshal : string → option (list (option RBDImage)) * option error)
    (pool out : string) (imgs : list RBDImage) :
  Output ["rbd"; "ls"; "-p"; pool; "-l"; "--format"; "json"] = (out, None) →
  Unmarshal out = (Some (Some <$> imgs), None) →
  ∃ l : list (option RBDImage),
    GetRBDImages Output Unmarshal pool = Returns (Some l, None) ∧
    length l = length imgs ∧
    ∀ (i : nat) (img : RBDImage),
      imgs !! i = Some img →
      ∃ img' : RBDImage,
        l !! i = Some (Some img') ∧
        RBDImage_Pool img' = pool ∧
        RBDImage_Name img' = RBDImage_Name img ∧
        RBDImage_Size img' = RBDImage_Size img ∧
        RBDImage_Format img' = RBDImage_Format img.
Proof.
  intros Hout Hjson. eexists. split; [|split].
  - unfold GetRBDImages, exec.Command, rbdCmd, formatOpt, jsonArg.
    rewrite Hout, Hjson, GetRBDImages_loop_returns. reflexivity.
  - by rewrite !length_fmap.
  - intros i img Hi. exists (set_RBDImage_Pool img pool).
    rewrite !list_lookup_fmap, Hi. done.
Qed.

Lemma GetRBDImages_pool_witness :
  ∃ l : list (option RBDImage),
    GetRBDImages
      (λ _, ("[]", None))
      (λ _, (Some [Some (mkRBDImage "vol1" 1024 2 ""); Some (mkRBDImage "vol2" 2048 2 "x")], None))
      "rbd"
    = Returns (Some l, None) ∧
    l = [Some (mkRBDImage "vol1" 1024 2 "rbd"); Some (mkRBDImage "vol2" 2048 2 "rbd")].
Proof.
  destruct (GetRBDImages_pool
              (λ _, ("[]", None))
              (λ _, (Some [Some (mkRBDImage "vol1" 1024 2 "");
                           Some (mkRBDImage "vol2" 2048 2 "x")], None))
              "rbd" "[]" [mkRBDImage "vol1" 1024 2 ""; mkRBDImage "vol2" 2048 2 "x"]
              eq_refl eq_refl) as (l & Hl & _).
  exists l. split; [exact Hl|].
  vm_compute in Hl. by injection Hl as <-.
Defined.

(** X5: when the decoded list of images holds a nil pointer (a null in
    the JSON text), [GetRBDImages] panics: it returns neither images nor an
    error. *)
Theorem GetRBDImages_null_panics
    (Output : list string → string * option error)
    (Unmarshal : string → option (list (option RBDImage)) * option error)
    (pool out : string) (rbdList : list (option RBDImage)) :
  Output ["rbd"; "ls"; "-p"; pool; "-l"; "--format"; "json"] = (out, None) →
  Unmarshal out = (Some rbdList, None) →
  None ∈ rbdList →
  ∃ msg : string, GetRBDImages Output Unmarshal pool = Panics msg.
Proof.
  intros Hout Hjson Hin.
  destruct (GetRBDImages_loop_panics rbdList pool Hin) as [msg Hmsg].
  exists msg. unfold GetRBDImages, exec.Command, rbdCmd, formatOpt, jsonArg.
  by rewrite Hout, Hjson, Hmsg.
Qed.

Lemma GetRBDImages_null_panics_witness :
  ∃ msg : string,
    GetRBDImages
      (λ _, ("[{}, null]", None))
      (λ _, (Some [Some (mkRBDImage "vol1" 1024 2 ""); None], None))
      "rbd"
    = Panics msg.
Proof.
  apply (GetRBDImages_null_panics
           (λ _, ("[{}, null]", None))
           (λ _, (Some [Some (mkRBDImage "vol1" 1024 2 ""); None], None))
           "rbd" "[{}, null]" [Some (mkRBDImage "vol1" 1024 2 ""); None]
           eq_refl eq_refl).
  right. left.
Defined.

(** ** Volume identifiers: the separator *)

Lemma Contains_byte_allBytes (s : string) (d : ascii) :
  strings.Contains s (String d "") = false →
  allBytes (λ c, negb (Ascii.eqb c d)) s = true.
Proof.
  induction s as [|c s IH]; [done|]. intros H.
  apply Contains_byte_cons in H as [Hc Hs]. cbn [allBytes].
  rewrite IH by done. apply Ascii.eqb_neq in Hc. by rewrite Hc.
Qed.

(** X6: [GetVolumeID] does not escape the separator: the pool ["a.b"]
    with the image ["c"] and the pool ["a"] with the image ["b.c"], two
    different pairs, get the same identifier, and so for all [a], [b] and
    [c]. *)
Theorem GetVolumeID_ambiguous (a b c : string) :
  (a +:+ "." +:+ b, c) ≠ (a, b +:+ "." +:+ c) ∧
  GetVolumeID (a +:+ "." +:+ b) c = GetVolumeID a (b +:+ "." +:+ c).
Proof.
  split.
  - intros [= Heq _]. apply (f_equal String.length) in Heq.
    rewrite !length_append in Heq. cbn [String.length] in Heq. lia.
  - rewrite !GetVolumeID_eq. by rewrite !append_assoc.
Qed.

(** X7: when the pool has no separator, the identifier can be taken apart
    again, whatever the image: the pool is what stands before its first
    ["."], the image what stands after it.  So identifiers of pools
    without a separator are equal only for equal pools and equal images,
    also when the images have dots. *)
Theorem GetVolumeID_split (pool image : string) :
  strings.Contains pool "." = false →
  bytes.IndexByte (GetVolumeID pool image) "." = Some (String.length pool) ∧
  sliceTo (GetVolumeID pool image) (String.length pool) = pool ∧
  sliceFrom (GetVolumeID pool image) (String.length pool + 1) = image ∧
  ∀ pool' image' : string,
    strings.Contains pool' "." = false →
    GetVolumeID pool image = GetVolumeID pool' image' →
    pool = pool' ∧ image = image'.
Proof.
  intros Hpool. rewrite GetVolumeID_eq.
  change ("." +:+ image) with (String "." image).
  repeat apply conj.
  - apply IndexByte_append. by apply Contains_byte_allBytes.
  - apply sliceTo_append.
  - replace (pool +:+ String "." image) with ((pool +:+ ".") +:+ image)
      by (by rewrite append_assoc).
    replace (String.length pool + 1)%nat with (String.length (pool +:+ "."))
      by (by rewrite length_append).
    apply sliceFrom_append.
  - intros pool' image' Hpool' Heq. rewrite GetVolumeID_eq in Heq.
    by apply dot_join_inj.
Qed.

Lemma GetVolumeID_split_witness :
  sliceTo (GetVolumeID "rbd" "vm.disk.1") 3 = "rbd" ∧
  sliceFrom (GetVolumeID "rbd" "vm.disk.1") 4 = "vm.disk.1".
Proof.
  destruct (GetVolumeID_split "rbd" "vm.disk.1" eq_refl) as (_ & H1 & H2 & _).
  split; [exact H1|exact H2].
Defined.

(** ** The mapped devices: the order of the visit, null entries *)

Lemma unwrap_entries (l : list (string * option rbdMappedEntry)) :
  (∀ k, (k, None) ∉ l) →
  ∃ entries : list (string * rbdMappedEntry), l = prod_map id Some <$> entries.
Proof.
  induction l as [|[k [e|]] l IH]; intros Hnone.
  - by exists [].
  - destruct IH as [entries ->].
    + intros k' Hin. apply (Hnone k'). by right.
    + by exists ((k, e) :: entries).
  - destruct (Hnone k). left.
Qed.

Lemma rekey_lookup_Some
    (entries : list (string * rbdMappedEntry)) (devMap : gmap string string)
    (i dev : string) :
  foldl (λ d ke, <[entryID ke.2 := Device ke.2]> d) devMap entries !! i
    = Some dev →
  devMap !! i = Some dev ∨
  ∃ k e, (k, e) ∈ entries ∧ entryID e = i ∧ Device e = dev.
Proof.
  revert devMap. induction entries as [|[k e] entries IH]; intros devMap H.
  - by left.
  - cbn [foldl snd] in H. apply IH in H as [H|(k' & e' & Hin & Hi & Hd)].
    + apply lookup_insert_Some in H as [[<- <-]|[_ H]].
      * right. exists k, e. split; [left|done].
      * by left.
    + right. exists k', e'. split; [by right|done].
Qed.

(** The map the loop builds, when entries with the same identifier have
    the same device. *)
Lemma rekey_lookup_consistent
    (entries : list (string * rbdMappedEntry)) (k : string)
    (e : rbdMappedEntry) :
  (∀ k1 e1 k2 e2, (k1, e1) ∈ entries → (k2, e2) ∈ entries →
                  entryID e1 = entryID e2 → Device e1 = Device e2) →
  (k, e) ∈ entries →
  foldl (λ d ke, <[entryID ke.2 := Device ke.2]> d) (∅ : gmap string string) entries !! entryID e
  = Some (Device e).
Proof.
  intros Hcons Hin.
  assert (is_Some (foldl (λ d ke, <[entryID ke.2 := Device ke.2]> d) (∅ : gmap string string) entries
                     !! entryID e)) as [dev Hdev].
  { apply rekey_is_Some. right. by exists k, e. }
  rewrite Hdev. f_equal.
  apply rekey_lookup_Some in Hdev as [H|(k' & e' & Hin' & Hi & <-)].
  - by rewrite lookup_empty in H.
  - by apply (Hcons k' e' k e).
Qed.

Lemma rekey_perm (entries1 entries2 : list (string * rbdMappedEntry)) :
  (∀ k1 e1 k2 e2, (k1, e1) ∈ entries1 → (k2, e2) ∈ entries1 →
                  entryID e1 = entryID e2 → Device e1 = Device e2) →
  entries1 ≡ₚ entries2 →
  foldl (λ d ke, <[entryID ke.2 := Device ke.2]> d) (∅ : gmap string string) entries1
  = foldl (λ d ke, <[entryID ke.2 := Device ke.2]> d) (∅ : gmap string string) entries2.
Proof.
  intros Hcons Hperm. apply map_eq. intros i.
  assert (Hcons2 : ∀ k1 e1 k2 e2, (k1, e1) ∈ entries2 → (k2, e2) ∈ entries2 →
                     entryID e1 = entryID e2 → Device e1 = Device e2).
  { intros k1 e1 k2 e2 H1 H2. rewrite <- Hperm in H1, H2. eauto. }
  destruct (foldl _ (∅ : gmap string string) entries1 !! i) as [dev|] eqn:H1.
  - apply rekey_lookup_Some in H1 as [H1|(k & e & Hin & <- & <-)].
    + by rewrite lookup_empty in H1.
    + symmetry. apply (rekey_lookup_consistent _ k); [done|].
      by rewrite <- Hperm.
  - destruct (foldl _ (∅ : gmap string string) entries2 !! i) as [dev|] eqn:H2; [|done].
    apply rekey_lookup_Some in H2 as [H2|(k & e & Hin & <- & <-)].
    + by rewrite lookup_empty in H2.
    + rewrite <- Hperm in Hin.
      by rewrite (rekey_lookup_consistent _ k e Hcons Hin) in H1.
Qed.

Lemma wrapped_perm (entries1 entries2 : list (string * rbdMappedEntry)) :
  prod_map id Some <$> entries1 ≡ₚ prod_map id Some <$> entries2 →
  entries1 ≡ₚ entries2.
Proof.
  intros Hperm.
  apply (fmap_Permutation (prod_map id (λ o : option rbdMappedEntry,
           default (mkEntry "" "" "" "") o))) in Hperm.
  rewrite <- !list_fmap_compose in Hperm.
  assert (Hid : ∀ l : list (string * rbdMappedEntry),
            (prod_map id (λ o : option rbdMappedEntry,
               default (mkEntry "" "" "" "") o) ∘ prod_map id Some) <$> l = l).
  { intros l. rewrite <- (list_fmap_id l) at 2.
    apply list_fmap_ext. by intros _ [] _. }
  by rewrite !Hid in Hperm.
Qed.

(** X8: in a table without null entries in which entries with the same
    volume identifier have the same device (so in every table whose
    identifiers are all different), the map [GetMappedRBDs] returns does
    not depend on the order in which [range] visits the table, and it gives
    the identifier of every entry the device of that entry. *)
Theorem GetMappedRBDs_order_independent
    (Output : list string → string * option error)
    (Unmarshal : string → gmap string (option rbdMappedEntry) * option error)
    (rangeOrder1 rangeOrder2 : gmap string (option rbdMappedEntry) →
                               list (string * option rbdMappedEntry))
    (out : string) (rbdMap : gmap string (option rbdMappedEntry)) :
  Output ["rbd"; "showmapped"; "--format"; "json"] = (out, None) →
  Unmarshal out = (rbdMap, None) →
  (∀ k, rbdMap !! k ≠ Some None) →
  (∀ k1 e1 k2 e2,
     rbdMap !! k1 = Some (Some e1) → rbdMap !! k2 = Some (Some e2) →
     entryID e1 = entryID e2 → Device e1 = Device e2) →
  rangeOrder1 rbdMap ≡ₚ map_to_list rbdMap →
  rangeOrder2 rbdMap ≡ₚ map_to_list rbdMap →
  ∃ devMap : gmap string string,
    GetMappedRBDs Output Unmarshal rangeOrder1 = Returns (Some devMap, None) ∧
    GetMappedRBDs Output Unmarshal rangeOrder2 = Returns (Some devMap, None) ∧
    ∀ k e, rbdMap !! k = Some (Some e) →
           devMap !! entryID e = Some (Device e).
Proof.
  intros Hout Hjson Hnone Hcons Hperm1 Hperm2.
  destruct (unwrap_entries (rangeOrder1 rbdMap)) as [entries1 H1].
  { intros k Hin. rewrite Hperm1 in Hin.
    apply elem_of_map_to_list in Hin. by apply (Hnone k). }
  destruct (unwrap_entries (rangeOrder2 rbdMap)) as [entries2 H2].
  { intros k Hin. rewrite Hperm2 in Hin.
    apply elem_of_map_to_list in Hin. by apply (Hnone k). }
  assert (Hin1 : ∀ k e, (k, e) ∈ entries1 ↔ rbdMap !! k = Some (Some e)).
  { intros k e. rewrite <- elem_of_wrapped, <- H1, Hperm1.
    apply elem_of_map_to_list. }
  assert (Hcons1 : ∀ k1 e1 k2 e2, (k1, e1) ∈ entries1 → (k2, e2) ∈ entries1 →
                     entryID e1 = entryID e2 → Device e1 = Device e2).
  { intros k1 e1 k2 e2 Ha Hb. apply Hin1 in Ha, Hb. eauto. }
  assert (Hperm : entries1 ≡ₚ entries2).
  { apply wrapped_perm. by rewrite <- H1, <- H2, Hperm1, Hperm2. }
  exists (foldl (λ d ke, <[entryID ke.2 := Device ke.2]> d) (∅ : gmap string string) entries1).
  unfold GetMappedRBDs, exec.Command, rbdCmd, formatOpt, jsonArg.
  rewrite Hout, Hjson, H1, H2, !GetMappedRBDs_loop_returns.
  split; [done|]. split; [by rewrite (rekey_perm _ _ Hcons1 Hperm)|].
  intros k e Hk. apply (rekey_lookup_consistent _ k); [done|].
  by apply Hin1.
Qed.

Lemma GetMappedRBDs_order_independent_witness :
  ∃ devMap : gmap string string,
    GetMappedRBDs
      (λ _, ("", None))
      (λ _, ({[ "0" := Some (mkEntry "/dev/rbd0" "vol1" "rbd" "-");
                "1" := Some (mkEntry "/dev/rbd1" "vol2" "rbd" "-") ]}, None))
      (λ _, [("0", Some (mkEntry "/dev/rbd0" "vol1" "rbd" "-"));
             ("1", Some (mkEntry "/dev/rbd1" "vol2" "rbd" "-"))])
    = Returns (Some devMap, None) ∧
    GetMappedRBDs
      (λ _, ("", None))
      (λ _, ({[ "0" := Some (mkEntry "/dev/rbd0" "vol1" "rbd" "-");
                "1" := Some (mkEntry "/dev/rbd1" "vol2" "rbd" "-") ]}, None))
      (λ _, [("1", Some (mkEntry "/dev/rbd1" "vol2" "rbd" "-"));
             ("0", Some (mkEntry "/dev/rbd0" "vol1" "rbd" "-"))])
    = Returns (Some devMap, None) ∧
    devMap !! "rbd.vol2" = Some "/dev/rbd1".
Proof.
  destruct (GetMappedRBDs_order_independent
      (λ _, ("", None))
      (λ _, ({[ "0" := Some (mkEntry "/dev/rbd0" "vol1" "rbd" "-");
                "1" := Some (mkEntry "/dev/rbd1" "vol2" "rbd" "-") ]}, None))
      (λ _, [("0", Some (mkEntry "/dev/rbd0" "vol1" "rbd" "-"));
             ("1", Some (mkEntry "/dev/rbd1" "vol2" "rbd" "-"))])
      (λ _, [("1", Some (mkEntry "/dev/rbd1" "vol2" "rbd" "-"));
             ("0", Some (mkEntry "/dev/rbd0" "vol1" "rbd" "-"))])
      ""
      {[ "0" := Some (mkEntry "/dev/rbd0" "vol1" "rbd" "-");
         "1" := Some (mkEntry "/dev/rbd1" "vol2" "rbd" "-") ]})
    as (devMap & H1 & H2 & Hlookup).
  - reflexivity.
  - reflexivity.
  - intros k Hk. apply lookup_insert_Some in Hk as [[_ [=]]|[_ Hk]].
    apply lookup_singleton_Some in Hk as [_ [=]].
  - intros k1 e1 k2 e2 Hk1 Hk2 Hid.
    apply lookup_insert_Some in Hk1 as [[_ [= <-]]|[_ Hk1]];
      [|apply lookup_singleton_Some in Hk1 as [_ [= <-]]];
      (apply lookup_insert_Some in Hk2 as [[_ [= <-]]|[_ Hk2]];
       [|apply lookup_singleton_Some in Hk2 as [_ [= <-]]]);
      done.
  - vm_compute. apply perm_swap.
  - vm_compute. reflexivity.
  - exists devMap. split; [exact H1|]. split; [exact H2|].
    apply (Hlookup "1" (mkEntry "/dev/rbd1" "vol2" "rbd" "-")).
    reflexivity.
Defined.

Lemma rekey_size
    (entries : list (string * rbdMappedEntry)) (devMap : gmap string string) :
  NoDup ((λ ke, entryID ke.2) <$> entries) →
  (∀ k e, (k, e) ∈ entries → devMap !! entryID e = None) →
  size (foldl (λ d ke, <[entryID ke.2 := Device ke.2]> d) devMap entries)
  = (size devMap + length entries)%nat.
Proof.
  revert devMap. induction entries as [|[k e] entries IH];
    intros devMap Hnodup Hfresh.
  - cbn. lia.
  - rewrite fmap_cons in Hnodup. apply NoDup_cons in Hnodup as [Hnotin Hnodup].
    cbn [foldl snd length]. rewrite IH; [|done|].
    + rewrite map_size_insert_None; [lia|]. apply (Hfresh k e). left.
    + intros k' e' Hin. rewrite lookup_insert_ne.
      * apply (Hfresh k' e'). by right.
      * intros Heq. apply Hnotin. cbn [snd]. rewrite Heq.
        apply list_elem_of_fmap. by exists (k', e').
Qed.

(** X9: in a table without null entries whose entries all have different
    volume identifiers, no entry is lost: the map [GetMappedRBDs] returns
    has as many devices as the table has entries. *)
Theorem GetMappedRBDs_distinct_size
    (Output : list string → string * option error)
    (Unmarshal : string → gmap string (option rbdMappedEntry) * option error)
    (rangeOrder : gmap string (option rbdMappedEntry) →
                  list (string * option rbdMappedEntry))
    (out : string) (rbdMap : gmap string (option rbdMappedEntry)) :
  Output ["rbd"; "showmapped"; "--format"; "json"] = (out, None) →
  Unmarshal out = (rbdMap, None) →
  (∀ k, rbdMap !! k ≠ Some None) →
  (∀ k1 e1 k2 e2,
     rbdMap !! k1 = Some (Some e1) → rbdMap !! k2 = Some (Some e2) →
     entryID e1 = entryID e2 → k1 = k2) →
  rangeOrder rbdMap ≡ₚ map_to_list rbdMap →
  ∃ devMap : gmap string string,
    GetMappedRBDs Output Unmarshal rangeOrder = Returns (Some devMap, None) ∧
    size devMap = size rbdMap.
Proof.
  intros Hout Hjson Hnone Hdistinct Hperm.
  destruct (unwrap_entries (rangeOrder rbdMap)) as [entries Hentries].
  { intros k Hin. rewrite Hperm in Hin.
    apply elem_of_map_to_list in Hin. by apply (Hnone k). }
  assert (Hin : ∀ k e, (k, e) ∈ entries ↔ rbdMap !! k = Some (Some e)).
  { intros k e. rewrite <- elem_of_wrapped, <- Hentries, Hperm.
    apply elem_of_map_to_list. }
  eexists. split.
  - unfold GetMappedRBDs, exec.Command, rbdCmd, formatOpt, jsonArg.
    rewrite Hout, Hjson, Hentries, GetMappedRBDs_loop_returns. reflexivity.
  - rewrite rekey_size.
    + rewrite map_size_empty, <- length_map_to_list, <- Hperm, Hentries.
      by rewrite length_fmap.
    + apply NoDup_fmap_2_strong.
      * intros [k1 e1] [k2 e2] H1 H2 Hid. cbn [snd] in Hid.
        apply Hin in H1, H2.
        assert (k1 = k2) as -> by eauto. congruence.
      * apply (NoDup_fmap_1 (prod_map id Some)).
        rewrite <- Hentries, Hperm. apply NoDup_map_to_list.
    + intros. apply lookup_empty.
Qed.

Lemma GetMappedRBDs_distinct_size_witness :
  ∃ devMap : gmap string string,
    GetMappedRBDs
      (λ _, ("", None))
      (λ _, ({[ "0" := Some (mkEntry "/dev/rbd0" "vol1" "rbd" "-");
                "1" := Some (mkEntry "/dev/rbd1" "vol2" "rbd" "-") ]}, None))
      map_to_list
    = Returns (Some devMap, None) ∧
    size devMap = 2%nat.
Proof.
  destruct (GetMappedRBDs_distinct_size
      (λ _, ("", None))
      (λ _, ({[ "0" := Some (mkEntry "/dev/rbd0" "vol1" "rbd" "-");
                "1" := Some (mkEntry "/dev/rbd1" "vol2" "rbd" "-") ]}, None))
      map_to_list ""
      {[ "0" := Some (mkEntry "/dev/rbd0" "vol1" "rbd" "-");
         "1" := Some (mkEntry "/dev/rbd1" "vol2" "rbd" "-") ]})
    as (devMap & Hret & Hsize).
  - reflexivity.
  - reflexivity.
  - intros k Hk. apply lookup_insert_Some in Hk as [[_ [=]]|[_ Hk]].
    apply lookup_singleton_Some in Hk as [_ [=]].
  - intros k1 e1 k2 e2 Hk1 Hk2 Hid.
    apply lookup_insert_Some in Hk1 as [[<- [= <-]]|[_ Hk1]];
      [|apply lookup_singleton_Some in Hk1 as [<- [= <-]]];
      (apply lookup_insert_Some in Hk2 as [[<- [= <-]]|[_ Hk2]];
       [|apply lookup_singleton_Some in Hk2 as [<- [= <-]]]);
      done.
  - reflexivity.
  - exists devMap. split; [exact Hret|]. rewrite Hsize. reflexivity.
Defined.

Lemma GetMappedRBDs_loop_panics
    (entries : list (string * option rbdMappedEntry))
    (devMap : gmap string string) (k : string) :
  (k, None) ∈ entries → ∃ msg, GetMappedRBDs_loop entries devMap = Panics msg.
Proof.
  revert devMap. induction entries as [|[k' [e|]] entries IH];
    intros devMap Hin.
  - by apply not_elem_of_nil in Hin.
  - apply elem_of_cons in Hin as [[=]|Hin]. cbn [GetMappedRBDs_loop].
    by apply IH.
  - by eexists.
Qed.

(** X10: when the table holds a null entry, [GetMappedRBDs] panics,
    whatever the order in which [range] visits the table: it returns
    neither a map nor an error. *)
Theorem GetMappedRBDs_null_panics
    (Output : list string → string * option error)
    (Unmarshal : string → gmap string (option rbdMappedEntry) * option error)
    (rangeOrder : gmap string (option rbdMappedEntry) →
                  list (string * option rbdMappedEntry))
    (out : string) (rbdMap : gmap string (option rbdMappedEntry)) (k : string) :
  Output ["rbd"; "showmapped"; "--format"; "json"] = (out, None) →
  Unmarshal out = (rbdMap, None) →
  rangeOrder rbdMap ≡ₚ map_to_list rbdMap →
  rbdMap !! k = Some None →
  ∃ msg : string, GetMappedRBDs Output Unmarshal rangeOrder = Panics msg.
Proof.
  intros Hout Hjson Hperm Hk.
  destruct (GetMappedRBDs_loop_panics (rangeOrder rbdMap) ∅ k) as [msg Hmsg].
  { rewrite Hperm. by apply elem_of_map_to_list. }
  exists msg. unfold GetMappedRBDs, exec.Command, rbdCmd, formatOpt, jsonArg.
  by rewrite Hout, Hjson, Hmsg.
Qed.

Lemma GetMappedRBDs_null_panics_witness :
  ∃ msg : string,
    GetMappedRBDs
      (λ _, ("", None))
      (λ _, ({[ "0" := Some (mkEntry "/dev/rbd0" "vol1" "rbd" "-");
                "1" := None ]}, None))
      map_to_list
    = Panics msg.
Proof.
  apply (GetMappedRBDs_null_panics
      (λ _, ("", None))
      (λ _, ({[ "0" := Some (mkEntry "/dev/rbd0" "vol1" "rbd" "-");
                "1" := None ]}, None))
      map_to_list ""
      {[ "0" := Some (mkEntry "/dev/rbd0" "vol1" "rbd" "-"); "1" := None ]}
      "1").
  - reflexivity.
  - reflexivity.
  - reflexivity.
  - reflexivity.
Defined.

(** ** Slices of pointers: no nil, no sharing, aliasing of the input *)

(** X11: the slice [ConvStrArrayToPtr] returns holds no nil pointer and no
    pointer twice, and every pointer in it points into the window of the
    input slice in its backing array. *)
Theorem ConvStrArrayToPtr_distinct (strArr : slice) :
  (∀ o : option ptr, o ∈ ConvStrArrayToPtr strArr → is_Some o) ∧
  NoDup (ConvStrArrayToPtr strArr) ∧
  (∀ p : ptr, Some p ∈ ConvStrArrayToPtr strArr →
     ptr_array p = slice_array strArr ∧
     (slice_off strArr <= ptr_index p < slice_off strArr + slice_len strArr)%nat).
Proof.
  rewrite ConvStrArrayToPtr_eq. repeat apply conj.
  - intros o Ho. apply list_elem_of_fmap in Ho as (i & -> & _). by eexists.
  - apply NoDup_fmap_2; [|apply NoDup_seq].
    intros i j [= Hij]. lia.
  - intros p Hp. apply list_elem_of_fmap in Hp as (i & [= ->] & Hi).
    apply elem_of_seq in Hi. cbn. split; [done|lia].
Qed.

(** X12: the pointers [ConvStrArrayToPtr] returns alias the input: after
    [strArr[i] = v], the pointer at index [i] gives [v], and the pointers
    at the other indices give what they gave before. *)
Theorem ConvStrArrayToPtr_aliases
    (h : heap) (strArr : slice) (i j : nat) (v : string) (p : ptr) :
  is_Some (elem h strArr i) →
  ConvStrArrayToPtr strArr !! j = Some (Some p) →
  load (store h (elem_addr strArr i) v) p
  = if decide (j = i) then Some v else load h p.
Proof.
  rewrite ConvStrArrayToPtr_eq. intros [s Hs] Hj.
  apply list_lookup_fmap_Some in Hj as (j' & [= ->] & Hj).
  apply lookup_seq in Hj as [-> _]. cbn [Nat.add] in *.
  unfold elem in Hs. case_decide as Hi; [|done].
  unfold load, store, elem_addr in *. cbn [ptr_array ptr_index] in *.
  rewrite lookup_alter_eq.
  destruct (h !! slice_array strArr) as [a|] eqn:Ha; [|done]. cbn in *.
  apply lookup_lt_Some in Hs.
  case_decide as Hji.
  - subst j. by apply list_lookup_insert_eq.
  - apply list_lookup_insert_ne. lia.
Qed.

Lemma ConvStrArrayToPtr_aliases_witness :
  load (store {[ 1%positive := ["x"; "y"; "z"] ]}
          (elem_addr (mkSlice 1%positive 1 2) 1) "new")
       (mkPtr 1%positive 2)
  = Some "new".
Proof.
  apply (ConvStrArrayToPtr_aliases
           {[ 1%positive := ["x"; "y"; "z"] ]} (mkSlice 1%positive 1 2)
           1 1 "new" (mkPtr 1%positive 2)).
  - by eexists.
  - reflexivity.
Defined.

(** ** Listing the pools: the heap, the last line, long lines *)

(** X13: [GetRadosPools] leaves the arrays of the heap as they are: each
    keeps its location and its content, and every pointer returned points
    into an array that is new. *)
Theorem GetRadosPools_frame
    (Output : list string → string * option error) (h : heap) :
  h ⊆ fst (GetRadosPools Output h) ∧
  ∀ (ptrs : list (option ptr)) (p : ptr),
    fst (snd (GetRadosPools Output h)) = Some ptrs →
    Some p ∈ ptrs →
    h !! ptr_array p = None.
Proof.
  unfold GetRadosPools.
  destruct (Output _) as [out [[]|]]; cbn [fst snd]; try done.
  assert (Hfresh : h !! fresh (dom h) = None).
  { apply not_elem_of_dom. apply is_fresh. }
  split.
  - by apply insert_subseteq.
  - intros ptrs p [= <-] Hp.
    destruct (ConvStrArrayToPtr_distinct
                (mkSlice (fresh (dom h)) 0
                   (length (scanPools (bufio.NewScanner out) []))))
      as (_ & _ & Hin).
    destruct (Hin p Hp) as [-> _]. exact Hfresh.
Qed.

Lemma sliceToN_short (s : string) (n : N) :
  (N.of_nat (String.length s) <= n)%N → sliceToN s n = s.
Proof.
  revert n. induction s as [|c s IH]; intros n Hn; [done|].
  cbn [sliceToN String.length] in *.
  destruct (N.eqb_spec n 0); [lia|]. rewrite IH; [done|lia].
Qed.

Lemma sliceFrom_length (s : string) : sliceFrom s (String.length s) = "".
Proof. induction s as [|c s IH]; [done|]. exact IH. Qed.

Lemma Scan_last_line (l t : string) :
  l ≠ "" →
  strings.Contains l LF = false →
  (N.of_nat (String.length l) < bufio.MaxScanTokenSize)%N →
  bufio.Scan (bufio.mkScanner l t)
  = (true, bufio.mkScanner "" (bufio.dropCR l)).
Proof.
  intros Hne Hl Hn. unfold bufio.Scan, bufio.ScanLines. cbn [bufio.input].
  rewrite sliceToN_short by lia.
  rewrite (IndexByte_None l "010") by (by apply Contains_byte_allBytes).
  destruct (N.ltb_spec (N.of_nat (String.length l)) bufio.MaxScanTokenSize);
    [|lia].
  assert (Nat.eqb (String.length l) 0 = false) as -> by (by destruct l).
  cbn [andb]. by rewrite sliceFrom_length.
Qed.

Lemma unlines_cons (l : string) (ls : list string) (rest : string) :
  unlines (l :: ls) +:+ rest = l +:+ LF +:+ unlines ls +:+ rest.
Proof. cbn [unlines foldr]. by rewrite !append_assoc. Qed.

Lemma scanPools_unlines_last (ls pools : list string) (last t : string) :
  Forall (λ l, strings.Contains l LF = false ∧
               (N.of_nat (String.length l) < bufio.MaxScanTokenSize)%N) ls →
  last ≠ "" →
  strings.Contains last LF = false →
  (N.of_nat (String.length last) < bufio.MaxScanTokenSize)%N →
  scanPools (bufio.mkScanner (unlines ls +:+ last) t) pools
  = pools ++ (bufio.dropCR <$> ls) ++ [bufio.dropCR last].
Proof.
  intros Hls Hne Hl Hn. revert pools t.
  induction Hls as [|l ls [Hl' Hn'] _ IH]; intros pools t; rewrite scanPools_eq.
  - cbn [unlines foldr]. rewrite append_empty_l, (Scan_last_line last t) by done.
    rewrite scanPools_eq, Scan_end. done.
  - rewrite unlines_cons, (Scan_line l _ t Hl' Hn'), IH.
    cbn [bufio.Text bufio.token]. rewrite fmap_cons.
    by rewrite <- !app_assoc.
Qed.

(** X14: the last line of the output of [rados lspools] needs no line
    feed: when the text ends with a line that is not empty and not
    terminated, [GetRadosPools] returns its name after the names of the
    lines before it. *)
Theorem GetRadosPools_last_line
    (Output : list string → string * option error) (h : heap)
    (ls : list string) (last : string) :
  Forall (λ l, strings.Contains l LF = false ∧
               (N.of_nat (String.length l) < bufio.MaxScanTokenSize)%N) ls →
  last ≠ "" →
  strings.Contains last LF = false →
  (N.of_nat (String.length last) < bufio.MaxScanTokenSize)%N →
  Output ["rados"; "lspools"] = (unlines ls +:+ last, None) →
  poolNames (GetRadosPools Output h)
  = Some (Some <$> ((bufio.dropCR <$> ls) ++ [bufio.dropCR last])).
Proof.
  intros Hls Hne Hl Hn Hout.
  rewrite (GetRadosPools_names _ _ _ Hout). unfold bufio.NewScanner.
  by rewrite scanPools_unlines_last.
Qed.

Lemma GetRadosPools_last_line_witness :
  poolNames (GetRadosPools (λ _, ("rbd" +:+ LF +:+ "data", None)) ∅)
  = Some [Some "rbd"; Some "data"].
Proof.
  apply (GetRadosPools_last_line
           (λ _, ("rbd" +:+ LF +:+ "data", None)) ∅ ["rbd"] "data").
  - repeat constructor.
  - discriminate.
  - reflexivity.
  - reflexivity.
  - reflexivity.
Defined.

Lemma Scan_too_long (long t : string) :
  (bufio.MaxScanTokenSize <= N.of_nat (String.length long))%N →
  allBytes (λ c, negb (Ascii.eqb c "010"))
           (sliceToN long bufio.MaxScanTokenSize) = true →
  bufio.Scan (bufio.mkScanner long t) = (false, bufio.mkScanner long "").
Proof.
  intros Hlen Hnl. unfold bufio.Scan, bufio.ScanLines. cbn [bufio.input].
  rewrite (IndexByte_None _ "010" Hnl).
  destruct (N.ltb_spec (N.of_nat (String.length long)) bufio.MaxScanTokenSize);
    [lia|done].
Qed.

Lemma scanPools_unlines_long (ls pools : list string) (long t : string) :
  Forall (λ l, strings.Contains l LF = false ∧
               (N.of_nat (String.length l) < bufio.MaxScanTokenSize)%N) ls →
  (bufio.MaxScanTokenSize <= N.of_nat (String.length long))%N →
  allBytes (λ c, negb (Ascii.eqb c "010"))
           (sliceToN long bufio.MaxScanTokenSize) = true →
  scanPools (bufio.mkScanner (unlines ls +:+ long) t) pools
  = pools ++ (bufio.dropCR <$> ls).
Proof.
  intros Hls Hlen Hnl. revert pools t.
  induction Hls as [|l ls [Hl' Hn'] _ IH]; intros pools t; rewrite scanPools_eq.
  - cbn [unlines foldr]. rewrite append_empty_l, (Scan_too_long long t) by done.
    by rewrite app_nil_r.
  - rewrite unlines_cons, (Scan_line l _ t Hl' Hn'), IH.
    cbn [bufio.Text bufio.token]. rewrite fmap_cons.
    by rewrite <- !app_assoc.
Qed.

(** X15: a line that does not end within the 64 KiB of the buffer of the
    scanner ends the listing without an error: [GetRadosPools] returns the
    names of the lines before it and a nil error, and drops that line and
    all the text after it. *)
Theorem GetRadosPools_long_line
    (Output : list string → string * option error) (h : heap)
    (ls : list string) (long : string) :
  Forall (λ l, strings.Contains l LF = false ∧
               (N.of_nat (String.length l) < bufio.MaxScanTokenSize)%N) ls →
  (bufio.MaxScanTokenSize <= N.of_nat (String.length long))%N →
  allBytes (λ c, negb (Ascii.eqb c "010"))
           (sliceToN long bufio.MaxScanTokenSize) = true →
  Output ["rados"; "lspools"] = (unlines ls +:+ long, None) →
  poolNames (GetRadosPools Output h) = Some (Some <$> (bufio.dropCR <$> ls)) ∧
  snd (snd (GetRadosPools Output h)) = None.
Proof.
  intros Hls Hlen Hnl Hout. split.
  - rewrite (GetRadosPools_names _ _ _ Hout). unfold bufio.NewScanner.
    by rewrite scanPools_unlines_long.
  - unfold GetRadosPools, exec.Command, radosCmd. by rewrite Hout.
Qed.

Lemma GetRadosPools_long_line_witness :
  poolNames
    (GetRadosPools
       (λ _, (unlines ["rbd"] +:+
              String.string_of_list_ascii (replicate (N.to_nat 65536) "x"%char)
              +:+ LF +:+ "data" +:+ LF, None)) ∅)
  = Some [Some "rbd"] ∧
  snd (snd (GetRadosPools
       (λ _, (unlines ["rbd"] +:+
              String.string_of_list_ascii (replicate (N.to_nat 65536) "x"%char)
              +:+ LF +:+ "data" +:+ LF, None)) ∅)) = None.
Proof.
  apply (GetRadosPools_long_line
           (λ _, (unlines ["rbd"] +:+
              String.string_of_list_ascii (replicate (N.to_nat 65536) "x"%char)
              +:+ LF +:+ "data" +:+ LF, None)) ∅ ["rbd"]
           (String.string_of_list_ascii (replicate (N.to_nat 65536) "x"%char)
              +:+ LF +:+ "data" +:+ LF)).
  - repeat constructor.
  - vm_compute. discriminate.
  - vm_compute. reflexivity.
  - reflexivity.
Defined.

(** ** Monitor addresses: order, errors, names, brackets *)

(** The loop adds to the addresses it starts with. *)
Lemma ParseMonitorAddresses_loop_acc
    (LookupIP : string → list net.IP * option error)
    (addrs : list string) (monIps : list net.IP) :
  ParseMonitorAddresses_loop LookupIP addrs monIps
  = match ParseMonitorAddresses_loop LookupIP addrs [] with
    | (Some ips, err) => (Some (monIps ++ ips), err)
    | (None, err) => (None, err)
    end.
Proof.
  revert monIps. induction addrs as [|mon addrs IH]; intros monIps.
  - cbn. by rewrite app_nil_r.
  - cbn [ParseMonitorAddresses_loop].
    destruct (hasPort mon);
      [destruct (net.SplitHostPort mon) as [[host0 port] [e|]]; [done|]|];
      (destruct (net.ParseIP _) as [ip|];
       [|destruct (LookupIP _) as [ips [e|]]; [done|];
         destruct (Nat.ltb 0 (length ips))]);
      rewrite ?app_nil_l;
      try (rewrite IH, (IH [ip]) || rewrite IH, (IH ips) || rewrite IH);
      destruct (ParseMonitorAddresses_loop LookupIP addrs []) as [[r|] err];
      by rewrite ?app_assoc.
Qed.

Lemma ParseMonitorAddresses_loop_app
    (LookupIP : string → list net.IP * option error)
    (addrs1 addrs2 : list string) (monIps : list net.IP) :
  ParseMonitorAddresses_loop LookupIP (addrs1 ++ addrs2) monIps
  = match ParseMonitorAddresses_loop LookupIP addrs1 monIps with
    | (Some ips, None) => ParseMonitorAddresses_loop LookupIP addrs2 ips
    | r => r
    end.
Proof.
  revert monIps. induction addrs1 as [|mon addrs1 IH]; intros monIps; [done|].
  cbn [app ParseMonitorAddresses_loop].
  destruct (hasPort mon);
    [destruct (net.SplitHostPort mon) as [[host0 port] [e|]]; [done|]|];
    (destruct (net.ParseIP _) as [ip|];
     [|destruct (LookupIP _) as [ips [e|]]; [done|];
       destruct (Nat.ltb 0 (length ips))]);
    apply IH.
Qed.

Lemma ParseMonitorAddresses_loop_shape
    (LookupIP : string → list net.IP * option error)
    (addrs : list string) (monIps : list net.IP) :
  (∃ ips, ParseMonitorAddresses_loop LookupIP addrs monIps = (Some ips, None)) ∨
  (∃ e, ParseMonitorAddresses_loop LookupIP addrs monIps = (None, Some e)).
Proof.
  revert monIps. induction addrs as [|mon addrs IH]; intros monIps.
  - left. by eexists.
  - destruct (ParseMonitorAddresses_loop_cons LookupIP mon addrs monIps)
      as [He|(_ & monIps' & ->)]; [by right|apply IH].
Qed.

(** X16: [ParseMonitorAddresses] on two lists one after the other: when it
    succeeds on both, the result is the addresses of the first followed by
    the addresses of the second, nothing reordered and nothing removed;
    when it fails on the first, it fails with the same error, and when it
    fails on the second only, with the error of the second. *)
Theorem ParseMonitorAddresses_app
    (LookupIP : string → list net.IP * option error)
    (addrs1 addrs2 : list string) :
  (∀ ips1 ips2,
     ParseMonitorAddresses LookupIP addrs1 = (Some ips1, None) →
     ParseMonitorAddresses LookupIP addrs2 = (Some ips2, None) →
     ParseMonitorAddresses LookupIP (addrs1 ++ addrs2)
     = (Some (ips1 ++ ips2), None)) ∧
  (∀ e,
     ParseMonitorAddresses LookupIP addrs1 = (None, Some e) →
     ParseMonitorAddresses LookupIP (addrs1 ++ addrs2) = (None, Some e)) ∧
  (∀ ips1 e,
     ParseMonitorAddresses LookupIP addrs1 = (Some ips1, None) →
     ParseMonitorAddresses LookupIP addrs2 = (None, Some e) →
     ParseMonitorAddresses LookupIP (addrs1 ++ addrs2) = (None, Some e)).
Proof.
  unfold ParseMonitorAddresses. repeat apply conj.
  - intros ips1 ips2 H1 H2.
    rewrite ParseMonitorAddresses_loop_app, H1.
    by rewrite ParseMonitorAddresses_loop_acc, H2.
  - intros e H1. by rewrite ParseMonitorAddresses_loop_app, H1.
  - intros ips1 e H1 H2.
    rewrite ParseMonitorAddresses_loop_app, H1.
    by rewrite ParseMonitorAddresses_loop_acc, H2.
Qed.

Lemma ParseMonitorAddresses_app_witness :
  ParseMonitorAddresses (λ host, ([], Some (DNSError "no such host" host)))
    (["10.0.0.2:6789"; "10.0.0.1"] ++ ["[::1]:6789"; "10.0.0.1"])
  = (Some ([net.IPv4 10 0 0 2; ip_10_0_0_1] ++ [ip_loopback6; ip_10_0_0_1]), None).
Proof.
  apply (proj1 (ParseMonitorAddresses_app
                  (λ host, ([], Some (DNSError "no such host" host)))
                  ["10.0.0.2:6789"; "10.0.0.1"] ["[::1]:6789"; "10.0.0.1"]));
    reflexivity.
Defined.

(** One turn of the loop that returns an error is the turn of an entry
    that fails. *)
Lemma ParseMonitorAddresses_loop_cons_error
    (LookupIP : string → list net.IP * option error)
    (mon : string) (addrs : list string) (monIps : list net.IP) (e : error) :
  ParseMonitorAddresses_loop LookupIP (mon :: addrs) monIps = (None, Some e) →
  entryFails LookupIP mon ∨
  ∃ monIps', ParseMonitorAddresses_loop LookupIP addrs monIps' = (None, Some e).
Proof.
  cbn [ParseMonitorAddresses_loop]. unfold entryFails.
  destruct (hasPort mon) eqn:Hport.
  - destruct (net.SplitHostPort mon) as [[host0 port] [e'|]] eqn:Hsplit.
    + intros _. left. left. split; [done|]. by exists e'.
    + destruct (net.ParseIP _) as [ip|] eqn:Hip; [intros H; right; eauto|].
      destruct (LookupIP _) as [ips [e'|]] eqn:Hlookup.
      * intros _. left. right. exists host0. split; [left; eauto|].
        cbn zeta. rewrite Hip, Hlookup. split; [done|]. by exists e'.
      * destruct (Nat.ltb 0 (length ips)); intros H; right; eauto.
  - destruct (net.ParseIP _) as [ip|] eqn:Hip; [intros H; right; eauto|].
    destruct (LookupIP _) as [ips [e'|]] eqn:Hlookup.
    + intros _. left. right. exists mon. split; [by right|].
      cbn zeta. rewrite Hip, Hlookup. split; [done|]. by exists e'.
    + destruct (Nat.ltb 0 (length ips)); intros H; right; eauto.
Qed.

Lemma ParseMonitorAddresses_loop_error
    (LookupIP : string → list net.IP * option error)
    (addrs : list string) (monIps : list net.IP) (e : error) :
  ParseMonitorAddresses_loop LookupIP addrs monIps = (None, Some e) →
  ∃ mon, mon ∈ addrs ∧ entryFails LookupIP mon.
Proof.
  revert monIps. induction addrs as [|mon addrs IH]; intros monIps H;
    [discriminate|].
  apply ParseMonitorAddresses_loop_cons_error in H as [H|[monIps' H]].
  - exists mon. split; [left|done].
  - destruct (IH _ H) as (bad & Hin & Hbad). exists bad. split; [by right|done].
Qed.

(** X17: [ParseMonitorAddresses] returns either addresses and no error,
    or an error and no addresses; and it returns an error exactly when
    the splitting of host and port or the resolution of the name fails
    for an entry of the list. *)
Theorem ParseMonitorAddresses_error_iff
    (LookupIP : string → list net.IP * option error) (addrs : list string) :
  ((∃ ips, ParseMonitorAddresses LookupIP addrs = (Some ips, None)) ∨
   (∃ e, ParseMonitorAddresses LookupIP addrs = (None, Some e))) ∧
  ((∃ e, ParseMonitorAddresses LookupIP addrs = (None, Some e))
   ↔ ∃ mon, mon ∈ addrs ∧ entryFails LookupIP mon).
Proof.
  split; [apply ParseMonitorAddresses_loop_shape|]. split.
  - intros [e He]. by apply ParseMonitorAddresses_loop_error in He.
  - apply ParseMonitorAddresses_loop_fails.
Qed.

Lemma last_is_Some (b c : string) (d : ascii) :
  is_Some (net.last (b +:+ String d c) d).
Proof.
  induction b as [|x b IH].
  - rewrite append_empty_l. cbn [net.last].
    destruct (net.last c d); [by eexists|].
    rewrite Ascii.eqb_refl. by eexists.
  - rewrite append_cons. cbn [net.last]. destruct IH as [i ->]. by eexists.
Qed.

Lemma last_append_Some (a r : string) (d : ascii) (j : nat) :
  net.last r d = Some j →
  net.last (a +:+ String d r) d = Some (String.length a + S j)%nat.
Proof.
  intros Hr. induction a as [|x a IH].
  - rewrite append_empty_l. cbn [net.last]. by rewrite Hr.
  - rewrite append_cons. cbn [net.last String.length]. by rewrite IH.
Qed.

Lemma sliceTo_append_more (a b : string) (n : nat) :
  sliceTo (a +:+ b) (String.length a + n) = a +:+ sliceTo b n.
Proof.
  induction a as [|x a IH]; [done|].
  rewrite !append_cons. cbn [String.length Nat.add sliceTo]. by rewrite IH.
Qed.

Lemma IndexByte_is_Some (a x : string) (d : ascii) :
  is_Some (bytes.IndexByte (a +:+ String d x) d).
Proof.
  induction a as [|c a IH].
  - rewrite append_empty_l. cbn [bytes.IndexByte].
    rewrite Ascii.eqb_refl. by eexists.
  - rewrite append_cons. cbn [bytes.IndexByte].
    destruct (Ascii.eqb c d); [by eexists|]. destruct IH as [i ->].
    by eexists.
Qed.

(** X18: an address with two colons or more that does not start with a
    bracket, so every IPv6 literal without brackets, is refused: the call
    fails with the error "too many colons in address" of the splitting of
    host and port, whatever the resolver. *)
Theorem ParseMonitorAddresses_bare_IPv6
    (LookupIP : string → list net.IP * option error) (a b c : string) :
  strings.HasPrefix (a +:+ ":" +:+ b +:+ ":" +:+ c) "[" = false →
  ParseMonitorAddresses LookupIP [a +:+ ":" +:+ b +:+ ":" +:+ c]
  = (None, Some (AddrError "too many colons in address"
                   (a +:+ ":" +:+ b +:+ ":" +:+ c))).
Proof.
  intros Hpfx.
  assert (Hport : hasPort (a +:+ ":" +:+ b +:+ ":" +:+ c) = true).
  { unfold hasPort. rewrite Hpfx. apply Contains_colon. by eexists _, _. }
  unfold ParseMonitorAddresses. cbn [ParseMonitorAddresses_loop].
  rewrite Hport.
  assert (Hsplit : net.SplitHostPort (a +:+ ":" +:+ b +:+ ":" +:+ c)
                   = ("", "", Some (AddrError "too many colons in address"
                                      (a +:+ ":" +:+ b +:+ ":" +:+ c))));
    [|by rewrite Hsplit].
  rewrite HasPrefix_bracket in Hpfx.
  change (":" +:+ b +:+ ":" +:+ c) with (String ":" (b +:+ String ":" c)) in *.
  destruct (last_is_Some b c ":") as [j Hj].
  unfold net.SplitHostPort.
  rewrite (last_append_Some a _ ":" j Hj), Hpfx.
  replace (String.length a + S j)%nat with (String.length a + S j)%nat by done.
  rewrite sliceTo_append_more. cbn [sliceTo]. unfold net.byteIndex.
  destruct (IndexByte_is_Some a (sliceTo (b +:+ String ":" c) j) ":")
    as [i ->].
  done.
Qed.

Lemma ParseMonitorAddresses_bare_IPv6_witness :
  ParseMonitorAddresses (λ host, ([], Some (DNSError "no such host" host)))
    ["fe80::1"]
  = (None, Some (AddrError "too many colons in address" "fe80::1")).
Proof.
  apply (ParseMonitorAddresses_bare_IPv6
           (λ host, ([], Some (DNSError "no such host" host))) "fe80" "" "1").
  reflexivity.
Defined.

(** X19: for a host name with a port, the port is dropped and the name is
    resolved: the call returns all the addresses of the resolver, in its
    order, and no address at all when the resolver gives none, which is
    not an error. *)
Theorem ParseMonitorAddresses_name_port
    (LookupIP : string → list net.IP * option error)
    (host port : string) (ips : list net.IP) :
  net.ParseIP host = None →
  allBytes (λ c, negb (strings.inCutset c ":[]%")) host = true →
  allBytes (λ c, negb (strings.inCutset c ":[]")) port = true →
  LookupIP host = (ips, None) →
  ParseMonitorAddresses LookupIP [host +:+ ":" +:+ port] = (Some ips, None).
Proof.
  intros Hip Hhost Hportok Hlookup.
  pose proof (allBytes_not_inCutset ":[]%" "[" host eq_refl Hhost) as Hh.
  assert (Hport : hasPort (host +:+ ":" +:+ port) = true).
  { unfold hasPort. rewrite (HasPrefix_bracket_append host _ Hh) by done.
    apply Contains_colon. by exists host, port. }
  unfold ParseMonitorAddresses. cbn [ParseMonitorAddresses_loop].
  rewrite Hport, (SplitHostPort_host_port host port Hhost Hportok).
  replace (strings.HasPrefix host "[") with false.
  - rewrite Hip, Hlookup. by destruct ips.
  - symmetry. rewrite <- (append_empty_r host) at 1.
    by apply HasPrefix_bracket_append.
Qed.

Lemma ParseMonitorAddresses_name_port_witness :
  ParseMonitorAddresses
    (λ host, if String.eqb host "ceph-mon"
             then ([net.IPv4 10 0 0 1; net.IPv4 10 0 0 2; net.IPv4 10 0 0 1], None)
             else ([], Some (DNSError "no such host" host)))
    ["ceph-mon:6789"]
  = (Some [net.IPv4 10 0 0 1; net.IPv4 10 0 0 2; net.IPv4 10 0 0 1], None).
Proof.
  apply (ParseMonitorAddresses_name_port _ "ceph-mon" "6789"); reflexivity.
Defined.

Lemma TrimRight_closing (host : string) :
  allBytes (λ c, negb (strings.inCutset c "[]")) host = true →
  strings.TrimRight (host +:+ "]") "[]" = host.
Proof.
  induction host as [|c host IH]; [done|]. cbn [allBytes].
  rewrite andb_true_iff, negb_true_iff. intros [Hc Hhost].
  rewrite append_cons. cbn [strings.TrimRight]. rewrite (IH Hhost), Hc.
  by destruct host.
Qed.

Lemma Trim_brackets (host : string) :
  allBytes (λ c, negb (strings.inCutset c "[]")) host = true →
  strings.Trim ("[" +:+ host +:+ "]") "[]" = host.
Proof.
  intros Hhost. destruct host as [|c host]; [done|].
  unfold strings.Trim.
  change ("[" +:+ String c host +:+ "]")
    with (String "[" (String c (host +:+ "]"))).
  cbn [strings.TrimLeft]. change (strings.inCutset "[" "[]") with true.
  cbn iota. pose proof Hhost as Hc. cbn [allBytes] in Hc.
  apply andb_true_iff in Hc as [Hc _]. apply negb_true_iff in Hc.
  rewrite Hc. by apply (TrimRight_closing (String c host)).
Qed.

Lemma IndexByte_append_le (a x : string) (d : ascii) (i : nat) :
  bytes.IndexByte (a +:+ String d x) d = Some i → (i <= String.length a)%nat.
Proof.
  revert i. induction a as [|c a IH]; intros i.
  - rewrite append_empty_l. cbn [bytes.IndexByte].
    rewrite Ascii.eqb_refl. intros [= <-]. cbn. lia.
  - rewrite append_cons. cbn [bytes.IndexByte String.length].
    destruct (Ascii.eqb c d); [intros [= <-]; lia|].
    destruct (bytes.IndexByte _ _) as [k|] eqn:Hk; [|done].
    intros [= <-]. specialize (IH k eq_refl). lia.
Qed.

Lemma hasPort_brackets_only (host : string) :
  allBytes (λ c, negb (strings.inCutset c "[]")) host = true →
  hasPort ("[" +:+ host +:+ "]") = false.
Proof.
  intros Hhost. unfold hasPort.
  replace (strings.HasPrefix ("[" +:+ host +:+ "]") "[") with true
    by (by destruct (host +:+ "]")).
  apply not_true_is_false. intros Hrx.
  apply ipv6wPortRX_Matches in Hrx as (h' & port & Heq & _ & Hne & _).
  change ("[" +:+ host +:+ "]") with (String "[" (host +:+ String "]" "")) in Heq.
  change ("[" +:+ h' +:+ "]:" +:+ port)
    with (String "[" (h' +:+ String "]" (String ":" port))) in Heq.
  injection Heq as Heq.
  pose proof (allBytes_not_inCutset "[]" "]" host eq_refl Hhost) as Hh.
  pose proof (IndexByte_append host "" "]" Hh) as Hi.
  rewrite Heq in Hi. apply IndexByte_append_le in Hi.
  apply (f_equal String.length) in Heq.
  rewrite !length_append in Heq. cbn [String.length] in Heq. lia.
Qed.

(** X20: an IP literal in brackets without a port is accepted, whatever
    the resolver: for every host that [net.ParseIP] accepts and that has no
    bracket in it, no port is detected in "[host]", the brackets are pulled
    off and the address of the host is returned. *)
Theorem ParseMonitorAddresses_brackets_only
    (LookupIP : string → list net.IP * option error)
    (host : string) (ip : net.IP) :
  net.ParseIP host = Some ip →
  allBytes (λ c, negb (strings.inCutset c "[]")) host = true →
  hasPort ("[" +:+ host +:+ "]") = false ∧
  ParseMonitorAddresses LookupIP ["[" +:+ host +:+ "]"] = (Some [ip], None).
Proof.
  intros Hip Hhost. pose proof (hasPort_brackets_only host Hhost) as Hport.
  split; [exact Hport|].
  unfold ParseMonitorAddresses. cbn [ParseMonitorAddresses_loop].
  rewrite Hport.
  replace (strings.HasPrefix ("[" +:+ host +:+ "]") "[") with true
    by (by destruct (host +:+ "]")).
  by rewrite (Trim_brackets host Hhost), Hip.
Qed.

Lemma ParseMonitorAddresses_brackets_only_witness :
  hasPort "[2001:db8::68]" = false ∧
  ParseMonitorAddresses (λ host, ([], Some (DNSError "no such host" host)))
    ["[2001:db8::68]"]
  = (Some [[0x20; 0x01; 0x0d; 0xb8; 0; 0; 0; 0; 0; 0; 0; 0; 0; 0; 0; 0x68]], None).
Proof.
  apply (ParseMonitorAddresses_brackets_only _ "2001:db8::68"); reflexivity.
Defined.

(** ** Creating, removing and unmapping *)

Lemma RBDCreate_features_returns (fs : list string) (args : list string) :
  RBDCreate_features (Some <$> fs) args
  = Returns (args ++ concat ((λ f, ["--image-feature"; f]) <$> fs)).
Proof.
  revert args. induction fs as [|f fs IH]; intros args.
  - cbn. by rewrite app_nil_r.
  - rewrite !fmap_cons. cbn [RBDCreate_features concat]. rewrite IH.
    by rewrite <- !app_assoc.
Qed.

Lemma RBDCreate_features_panics (features : list (option string))
    (args : list string) :
  None ∈ features → ∃ msg, RBDCreate_features features args = Panics msg.
Proof.
  revert args. induction features as [|[f|] features IH]; intros args Hin.
  - by apply not_elem_of_nil in Hin.
  - apply elem_of_cons in Hin as [[=]|Hin]. cbn [RBDCreate_features].
    by apply IH.
  - by eexists.
Qed.

Lemma length_feature_args (fs : list string) :
  length (concat ((λ f, ["--image-feature"; f]) <$> fs)) = (2 * length fs)%nat.
Proof.
  induction fs as [|f fs IH]; [done|].
  rewrite fmap_cons. cbn [concat length app]. rewrite IH. lia.
Qed.

Lemma FormatInt10_read (i : Z) :
  option_map Z.of_int
    (DecimalString.NilZero.int_of_string (strconv.FormatInt10 i)) = Some i.
Proof.
  unfold strconv.FormatInt10. rewrite DecimalString.NilZero.isi.
  - cbn [option_map]. by rewrite DecimalZ.of_to.
  - destruct i as [|p|p]; cbn; try discriminate.
    intros [= H]. by apply DecimalPos.Unsigned.to_uint_nonnil in H.
  - destruct i as [|p|p]; cbn; try discriminate.
    intros [= H]. by apply DecimalPos.Unsigned.to_uint_nonnil in H.
Qed.

(** X21: the command [RBDCreate] runs, for features none of which is nil:
    [rbd create --pool <pool> --object-size <objectSize> --size <size>],
    then [--image-feature <f>] for each feature in the order given, then
    the image as the last argument.  The size is the decimal text of
    [sizeGB] followed by ["G"], from which [sizeGB] can be read back.
    [RBDCreate] returns nil exactly when this command runs without
    error. *)
Theorem RBDCreate_command
    (Run : list string → option error)
    (pool image objectSize : string) (sizeGB : Z) (fs : list string) :
  ∃ (size : string) (args : list string),
    args = ["rbd"; "create"; "--pool"; pool; "--object-size"; objectSize;
            "--size"; size]
           ++ concat ((λ f, ["--image-feature"; f]) <$> fs) ++ [image] ∧
    RBDCreate_args pool image sizeGB objectSize (Some <$> fs) = Returns args ∧
    list.last args = Some image ∧
    length args = (2 * length fs + 9)%nat ∧
    size = strconv.FormatInt10 sizeGB +:+ "G" ∧
    option_map Z.of_int
      (DecimalString.NilZero.int_of_string
         (sliceTo size (String.length size - 1))) = Some sizeGB ∧
    (RBDCreate Run pool image sizeGB objectSize (Some <$> fs) = Returns None
     ↔ Run args = None).
Proof.
  eexists _, _. split; [reflexivity|].
  assert (Hargs : RBDCreate_args pool image sizeGB objectSize (Some <$> fs)
          = Returns (["rbd"; "create"; "--pool"; pool; "--object-size";
                      objectSize; "--size"; strconv.FormatInt10 sizeGB +:+ "G"]
                     ++ concat ((λ f, ["--image-feature"; f]) <$> fs)
                     ++ [image])).
  { unfold RBDCreate_args, exec.Command, rbdCmd, poolOpt.
    rewrite RBDCreate_features_returns. by rewrite <- !app_assoc. }
  repeat apply conj.
  - exact Hargs.
  - by rewrite app_assoc, last_snoc.
  - rewrite !length_app. cbn [length].
    rewrite length_feature_args. lia.
  - reflexivity.
  - rewrite length_append. cbn [String.length].
    replace (String.length (strconv.FormatInt10 sizeGB) + 1 - 1)%nat
      with (String.length (strconv.FormatInt10 sizeGB)) by lia.
    rewrite sliceTo_append. apply FormatInt10_read.
  - unfold RBDCreate. rewrite Hargs.
    destruct (Run _) as [[]|]; done.
  - unfold RBDCreate. rewrite Hargs. by intros ->.
Qed.

(** X22: when one of the features is nil, [RBDCreate] panics while it
    builds the arguments: it returns nothing, whatever the command would
    do. *)
Theorem RBDCreate_nil_feature
    (Run : list string → option error)
    (pool image objectSize : string) (sizeGB : Z)
    (features : list (option string)) :
  None ∈ features →
  ∃ msg : string,
    RBDCreate Run pool image sizeGB objectSize features = Panics msg.
Proof.
  intros Hin. unfold RBDCreate, RBDCreate_args.
  destruct (RBDCreate_features_panics features
              (exec.Command rbdCmd
                 ["create"; poolOpt; pool; "--object-size"; objectSize;
                  "--size"; strconv.FormatInt10 sizeGB +:+ "G"]) Hin)
    as [msg ->].
  by exists msg.
Qed.

Lemma RBDCreate_nil_feature_witness :
  ∃ msg : string,
    RBDCreate (λ _, None) "rbd" "vol1" 10 "4M" [Some "layering"; None]
    = Panics msg.
Proof.
  apply (RBDCreate_nil_feature (λ _, None) "rbd" "vol1" "4M" 10
           [Some "layering"; None]).
  right. left.
Defined.

(** X23: [RBDRemove] and [RBDUnmap] return nil exactly when their command,
    [rbd rm --pool <pool> --no-progress <image>] and [rbd unmap <device>],
    runs without error; when it ends with an exit error, the message of the
    error they return is their own text followed by the standard error
    held by that error, unchanged. *)
Theorem RBDRemove_RBDUnmap_errors
    (Run : list string → option error) (pool image device : string) :
  (RBDRemove Run pool image = None
   ↔ Run ["rbd"; "rm"; "--pool"; pool; "--no-progress"; image] = None) ∧
  (RBDUnmap Run device = None ↔ Run ["rbd"; "unmap"; device] = None) ∧
  (∀ sys stderr,
     Run ["rbd"; "rm"; "--pool"; pool; "--no-progress"; image]
     = Some (ExitError sys stderr) →
     RBDRemove Run pool image
     = Some (goof_New ("Error deleting RBD: " +:+ stderr))) ∧
  (∀ sys stderr,
     Run ["rbd"; "unmap"; device] = Some (ExitError sys stderr) →
     RBDUnmap Run device
     = Some (goof_New ("Unable to unmap RBD: " +:+ stderr))).
Proof.
  unfold RBDRemove, RBDUnmap, exec.Command, rbdCmd, poolOpt.
  repeat apply conj.
  - destruct (Run _) as [[]|]; done.
  - by intros ->.
  - destruct (Run _) as [[]|]; done.
  - by intros ->.
  - intros sys stderr ->. cbn [fmt.Sprintf]. by rewrite append_empty_r.
  - intros sys stderr ->. cbn [fmt.Sprintf]. by rewrite append_empty_r.
Qed.

(** ** The commands that fail *)

(** X24: when its command ends with an exit error, each of
    [GetRadosPools], [GetRBDImages], [GetMappedRBDs], [GetRBDStatus] and
    [RBDHasWatchers] returns no result and an error whose message is its
    own text followed by the standard error of the command, unchanged; the
    output is not decoded, and [GetRadosPools] leaves the heap as it
    is. *)
Theorem exit_error_messages
    (Output : list string → string * option error)
    (sys : option syscall.WaitStatus) (stderr : string) :
  (∀ argv, snd (Output argv) = Some (ExitError sys stderr)) →
  (∀ h, GetRadosPools Output h
        = (h, (None, Some (goof_New ("Unable to get pools: " +:+ stderr))))) ∧
  (∀ Unmarshal pool,
     GetRBDImages Output Unmarshal pool
     = Returns (None, Some (goof_New ("Unable to get rbd images: " +:+ stderr)))) ∧
  (∀ Unmarshal rangeOrder,
     GetMappedRBDs Output Unmarshal rangeOrder
     = Returns (None, Some (goof_New ("Unable to get RBD map: " +:+ stderr)))) ∧
  (∀ Unmarshal pool image,
     GetRBDStatus Output Unmarshal pool image
     = (None, Some (goof_New ("Unable to get RBD status: " +:+ stderr)))) ∧
  (∀ Unmarshal pool image,
     RBDHasWatchers Output Unmarshal pool image
     = (false, Some (goof_New ("Unable to get RBD status: " +:+ stderr)))).
Proof.
  intros Hout.
  assert (Hcmd : ∀ argv, ∃ out, Output argv = (out, Some (ExitError sys stderr))).
  { intros argv. specialize (Hout argv). destruct (Output argv) as [out err].
    cbn in Hout. subst err. by exists out. }
  repeat apply conj.
  - intros h. unfold GetRadosPools.
    destruct (Hcmd (exec.Command radosCmd ["lspools"])) as [out ->].
    cbn [fmt.Sprintf]. by rewrite append_empty_r.
  - intros Unmarshal pool. unfold GetRBDImages.
    destruct (Hcmd (exec.Command rbdCmd
                      ["ls"; "-p"; pool; "-l"; formatOpt; jsonArg])) as [out ->].
    cbn [fmt.Sprintf]. by rewrite append_empty_r.
  - intros Unmarshal rangeOrder. unfold GetMappedRBDs.
    destruct (Hcmd (exec.Command rbdCmd ["showmapped"; formatOpt; jsonArg]))
      as [out ->].
    cbn [fmt.Sprintf]. by rewrite append_empty_r.
  - intros Unmarshal pool image. unfold GetRBDStatus.
    destruct (Hcmd (exec.Command rbdCmd
                      ["status"; poolOpt; pool; image; formatOpt; jsonArg]))
      as [out ->].
    cbn [fmt.Sprintf]. by rewrite append_empty_r.
  - intros Unmarshal pool image. unfold RBDHasWatchers, GetRBDStatus.
    destruct (Hcmd (exec.Command rbdCmd
                      ["status"; poolOpt; pool; image; formatOpt; jsonArg]))
      as [out ->].
    cbn [fmt.Sprintf]. by rewrite append_empty_r.
Qed.

Lemma exit_error_messages_witness :
  GetRBDStatus
    (λ _, ("", Some (ExitError (Some 256) "rbd: 100% busy")))
    (λ _, (∅, None)) "rbd" "vol1"
  = (None, Some (goof_New "Unable to get RBD status: rbd: 100% busy")).
Proof.
  apply (exit_error_messages
           (λ _, ("", Some (ExitError (Some 256) "rbd: 100% busy")))
           (Some 256) "rbd: 100% busy").
  reflexivity.
Defined.

(** ** The names of the pools *)

Lemma allBytes_dropCR (p : ascii → bool) (s : string) :
  allBytes p s = true → allBytes p (bufio.dropCR s) = true.
Proof.
  induction s as [|c s IH]; [done|]. cbn [allBytes bufio.dropCR].
  rewrite andb_true_iff. intros [Hc Hs]. destruct s as [|d s].
  - by destruct (Ascii.eqb c "013"); cbn [allBytes]; rewrite ?Hc.
  - cbn [allBytes]. rewrite Hc. by apply IH.
Qed.

Lemma IndexByte_prefix (s : string) (d : ascii) (i : nat) :
  bytes.IndexByte s d = Some i →
  allBytes (λ c, negb (Ascii.eqb c d)) (sliceTo s i) = true.
Proof.
  revert i. induction s as [|c s IH]; intros i; [done|].
  cbn [bytes.IndexByte]. destruct (Ascii.eqb c d) eqn:Hc.
  - by intros [= <-].
  - destruct (bytes.IndexByte s d) as [k|]; [|done]. intros [= <-].
    cbn [sliceTo allBytes]. by rewrite Hc, IH.
Qed.

Lemma IndexByte_None_inv (s : string) (d : ascii) :
  bytes.IndexByte s d = None → allBytes (λ c, negb (Ascii.eqb c d)) s = true.
Proof.
  induction s as [|c s IH]; [done|]. cbn [bytes.IndexByte allBytes].
  destruct (Ascii.eqb c d); [done|].
  destruct (bytes.IndexByte s d); [done|]. intros _. by apply IH.
Qed.

Lemma Scan_token_no_LF (s s' : bufio.Scanner) :
  bufio.Scan s = (true, s') →
  allBytes (λ c, negb (Ascii.eqb c "010")) (bufio.Text s') = true.
Proof.
  unfold bufio.Scan, bufio.ScanLines.
  destruct (_ && _); [discriminate|].
  destruct (bytes.IndexByte _ _) as [i|] eqn:Hi.
  - intros [= <-]. cbn. apply allBytes_dropCR. by apply IndexByte_prefix.
  - destruct (_ <? _)%N; [|discriminate].
    intros [= <-]. cbn. apply allBytes_dropCR. by apply IndexByte_None_inv.
Qed.

Lemma scanPools_no_LF (scanner : bufio.Scanner) (pools : list string) :
  Forall (λ name, allBytes (λ c, negb (Ascii.eqb c "010")) name = true) pools →
  Forall (λ name, allBytes (λ c, negb (Ascii.eqb c "010")) name = true)
         (scanPools scanner pools).
Proof.
  funelim (scanPools scanner pools); intros Hpools; [|done].
  match goal with IH : Forall _ _ → Forall _ (scanPools _ _) |- _ => apply IH end.
  apply Forall_app. split; [done|]. apply Forall_singleton.
  by eapply Scan_token_no_LF.
Qed.

(** X25: whatever the [rados lspools] command prints, no name that
    [GetRadosPools] returns has a line feed in it, and every pointer it
    returns points to a name. *)
Theorem GetRadosPools_names_no_LF
    (Output : list string → string * option error) (h : heap)
    (names : list (option string)) :
  poolNames (GetRadosPools Output h) = Some names →
  ∀ o, o ∈ names →
    ∃ name, o = Some name ∧
            allBytes (λ c, negb (Ascii.eqb c "010")) name = true.
Proof.
  unfold GetRadosPools.
  destruct (Output _) as [out [[]|]] eqn:Hout; cbn [poolNames]; try done.
  rewrite load_new_array. intros [= <-] o Ho.
  apply list_elem_of_fmap in Ho as (name & -> & Hname).
  exists name. split; [done|].
  pose proof (scanPools_no_LF (bufio.NewScanner out) [] (Forall_nil_2 _)) as H.
  rewrite Forall_forall in H. by apply H.
Qed.

Lemma GetRadosPools_names_no_LF_witness :
  ∃ name, Some "data" = Some name ∧
          allBytes (λ c, negb (Ascii.eqb c "010")) name = true.
Proof.
  apply (GetRadosPools_names_no_LF
           (λ _, ("rbd" +:+ LF +:+ LF +:+ "data", None)) ∅
           [Some "rbd"; Some ""; Some "data"]).
  - reflexivity.
  - right. right. left.
Defined.

(** ** Results and errors *)

(** X26: [RBDHasWatchers] answers true, with no error, in one case only:
    the [rbd status] command succeeded, its output was decoded, and the
    ["watchers"] field of the document is a map or a sequence that is not
    empty. *)
Theorem RBDHasWatchers_true_iff
    (Output : list string → string * option error)
    (Unmarshal : string → gmap string value * option error)
    (pool image : string) :
  RBDHasWatchers Output Unmarshal pool image = (true, None)
  ↔ ∃ (out : string) (m : gmap string value),
      Output ["rbd"; "status"; "--pool"; pool; image; "--format"; "json"]
      = (out, None) ∧
      Unmarshal out = (m, None) ∧
      ((∃ v : gmap string value, m !! "watchers" = Some (Object v) ∧ v ≠ ∅) ∨
       (∃ v : list value, m !! "watchers" = Some (Array v) ∧ v ≠ [])).
Proof.
  unfold RBDHasWatchers, GetRBDStatus, exec.Command, rbdCmd, poolOpt,
    formatOpt, jsonArg.
  destruct (Output _) as [out [e|]].
  { split; [by destruct e|]. intros (? & ? & [=] & _). }
  destruct (Unmarshal out) as [m [e|]] eqn:Hjson.
  { split; [done|]. intros (? & m' & [= <-] & Hm & _). congruence. }
  change (default ∅ (Some m)) with m. unfold hasWatchers. split.
  - intros H. exists out, m. split; [done|]. split; [done|].
    destruct (m !! "watchers") as [[|b|bits|s|v|v]|]; try discriminate.
    + right. exists v. split; [done|]. intros ->. discriminate.
    + left. exists v. split; [done|]. intros ->. discriminate.
  - intros (out' & m' & [= <-] & Hm & Hw).
    rewrite Hjson in Hm. injection Hm as <-.
    destruct Hw as [(v & -> & Hv)|(v & -> & Hv)]; f_equal.
    + apply bool_decide_eq_true. destruct (size v) eqn:Hsize; [|lia].
      by apply map_size_empty_inv in Hsize.
    + apply bool_decide_eq_true. destruct v; [done|cbn; lia].
Qed.


(** X28: when the command succeeds but its output cannot be decoded, each
    of [GetRBDInfo], [GetRBDImages], [GetMappedRBDs] and [GetRBDStatus]
    returns no result and an error that holds the error of the decoder,
    whatever the decoder left in its target. *)
Theorem decode_errors
    (Output : list string → string * option error) (e : error) :
  (∀ argv, snd (Output argv) = None) →
  (∀ Unmarshal pool name,
     (∀ out, snd (Unmarshal out) = Some e) →
     GetRBDInfo Output Unmarshal pool name
     = (None, Some (goof_WithError "Unable to parse rbd info" e))) ∧
  (∀ Unmarshal pool,
     (∀ out, snd (Unmarshal out) = Some e) →
     GetRBDImages Output Unmarshal pool
     = Returns (None, Some (goof_WithError "Unable to parse rbd ls" e))) ∧
  (∀ Unmarshal rangeOrder,
     (∀ out, snd (Unmarshal out) = Some e) →
     GetMappedRBDs Output Unmarshal rangeOrder
     = Returns (None, Some (goof_WithError "Unable to parse rbd showmapped" e))) ∧
  (∀ Unmarshal pool image,
     (∀ out, snd (Unmarshal out) = Some e) →
     GetRBDStatus Output Unmarshal pool image
     = (None, Some (goof_WithError "Unable to parse rbd status" e))).
Proof.
  intros Hout.
  assert (Hcmd : ∀ argv, ∃ out, Output argv = (out, None)).
  { intros argv. specialize (Hout argv). destruct (Output argv) as [out err].
    cbn in Hout. subst err. by exists out. }
  repeat apply conj.
  - intros Unmarshal pool name Hjson. unfold GetRBDInfo.
    destruct (Hcmd (exec.Command rbdCmd
                      ["info"; "-p"; pool; name; formatOpt; jsonArg])) as [out ->].
    specialize (Hjson out). destruct (Unmarshal out) as [info err].
    cbn in Hjson. by subst err.
  - intros Unmarshal pool Hjson. unfold GetRBDImages.
    destruct (Hcmd (exec.Command rbdCmd
                      ["ls"; "-p"; pool; "-l"; formatOpt; jsonArg])) as [out ->].
    specialize (Hjson out). destruct (Unmarshal out) as [l err].
    cbn in Hjson. by subst err.
  - intros Unmarshal rangeOrder Hjson. unfold GetMappedRBDs.
    destruct (Hcmd (exec.Command rbdCmd ["showmapped"; formatOpt; jsonArg]))
      as [out ->].
    specialize (Hjson out). destruct (Unmarshal out) as [m err].
    cbn in Hjson. by subst err.
  - intros Unmarshal pool image Hjson. unfold GetRBDStatus.
    destruct (Hcmd (exec.Command rbdCmd
                      ["status"; poolOpt; pool; image; formatOpt; jsonArg]))
      as [out ->].
    specialize (Hjson out). destruct (Unmarshal out) as [m err].
    cbn in Hjson. by subst err.
Qed.

Lemma decode_errors_witness :
  GetMappedRBDs
    (λ _, ("{", None))
    (λ _, ({[ "0" := None ]}, Some (SyntaxError "unexpected end of JSON input")))
    map_to_list
  = Returns (None, Some (goof_WithError "Unable to parse rbd showmapped"
                           (SyntaxError "unexpected end of JSON input"))).
Proof.
  apply (decode_errors (λ _, ("{", None))
           (SyntaxError "unexpected end of JSON input")).
  - reflexivity.
  - reflexivity.
Defined.

(** ** A bracketed address whose port is not a number *)

Lemma sliceFrom_append_le (a b : string) (n : nat) :
  (n <= String.length a)%nat → sliceFrom (a +:+ b) n = sliceFrom a n +:+ b.
Proof.
  revert n. induction a as [|c a IH]; intros [|n] Hn; try done.
  - cbn in Hn. lia.
  - rewrite append_cons, !sliceFrom_cons. apply IH. cbn in Hn. lia.
Qed.

Lemma TrimRight_clean (port : string) :
  port ≠ "" →
  allBytes (λ c, negb (strings.inCutset c "[]")) port = true →
  strings.TrimRight port "[]" = port.
Proof.
  induction port as [|c port IH]; [done|]. intros _. cbn [allBytes].
  rewrite andb_true_iff, negb_true_iff. intros [Hc Hport].
  cbn [strings.TrimRight]. destruct port as [|d port].
  - cbn [strings.TrimRight]. by rewrite Hc.
  - by rewrite IH.
Qed.

Lemma TrimRight_append_clean (a port : string) :
  port ≠ "" →
  allBytes (λ c, negb (strings.inCutset c "[]")) port = true →
  strings.TrimRight (a +:+ port) "[]" = a +:+ port.
Proof.
  intros Hne Hport. induction a as [|c a IH].
  - rewrite append_empty_l. by apply TrimRight_clean.
  - rewrite append_cons. cbn [strings.TrimRight]. rewrite IH.
    destruct (a +:+ port) eqn:Heq; [|done].
    apply append_eq_empty in Heq as [_ ->]. done.
Qed.

Lemma hasPort_port_not_number (host port : string) :
  allBytes (λ c, negb (strings.inCutset c "[]")) host = true →
  allBytes (λ c, negb (strings.inCutset c "[]")) port = true →
  allBytes isDigit port = false →
  hasPort ("[" +:+ host +:+ "]:" +:+ port) = false.
Proof.
  intros Hhost Hport Hdigits. unfold hasPort.
  replace (strings.HasPrefix ("[" +:+ host +:+ "]:" +:+ port) "[") with true
    by (by destruct (host +:+ "]:" +:+ port)).
  apply not_true_is_false. intros Hrx.
  apply ipv6wPortRX_Matches in Hrx as (h' & p' & Heq & _ & _ & Hp').
  change ("[" +:+ host +:+ "]:" +:+ port)
    with (String "[" (host +:+ String "]" (String ":" port))) in Heq.
  change ("[" +:+ h' +:+ "]:" +:+ p')
    with (String "[" (h' +:+ String "]" (String ":" p'))) in Heq.
  injection Heq as Heq.
  pose proof (allBytes_not_inCutset "[]" "]" host eq_refl Hhost) as Hh.
  pose proof (allBytes_not_inCutset "[]" "]" port eq_refl Hport) as Hp.
  assert (Hle : (String.length host <= String.length h')%nat).
  { pose proof (IndexByte_append host (String ":" port) "]" Hh) as Hi.
    rewrite Heq in Hi. by apply IndexByte_append_le in Hi. }
  assert (Hlen : String.length h' = String.length host).
  { destruct (decide (String.length h' = String.length host)) as [|Hne];
      [done|exfalso].
    assert (Hrest : sliceFrom (host +:+ String "]" (String ":" port))
                      (String.length host + 1) = String ":" port).
    { replace (host +:+ String "]" (String ":" port))
        with ((host +:+ "]") +:+ String ":" port) by (by rewrite append_assoc).
      replace (String.length host + 1)%nat with (String.length (host +:+ "]"))
        by (by rewrite length_append).
      apply sliceFrom_append. }
    rewrite Heq, sliceFrom_append_le in Hrest by lia.
    destruct (IndexByte_is_Some (sliceFrom h' (String.length host + 1))
                (String ":" p') "]") as [i Hi].
    rewrite Hrest in Hi. cbn [bytes.IndexByte] in Hi.
    change (Ascii.eqb ":" "]") with false in Hi. cbn iota in Hi.
    by rewrite (IndexByte_None port "]" Hp) in Hi. }
  assert (Hfrom : sliceFrom (host +:+ String "]" (String ":" port))
                    (String.length host) = String "]" (String ":" port))
    by apply sliceFrom_append.
  rewrite Heq, <- Hlen, sliceFrom_append in Hfrom.
  injection Hfrom as ->. congruence.
Qed.

(** X29: a bracketed address whose port is not a number is not split: no
    port is detected for "[host]:port" when [port] has a byte that is not a
    digit, only the leading bracket is trimmed, and what is parsed, and
    then handed to the resolver when it is not an IP literal, is
    [host ++ "]:" ++ port], closing bracket and port included. *)
Theorem ParseMonitorAddresses_port_not_number
    (LookupIP : string → list net.IP * option error) (host port : string) :
  host ≠ "" → port ≠ "" →
  allBytes (λ c, negb (strings.inCutset c "[]")) host = true →
  allBytes (λ c, negb (strings.inCutset c "[]")) port = true →
  allBytes isDigit port = false →
  net.ParseIP (host +:+ "]:" +:+ port) = None →
  ParseMonitorAddresses LookupIP ["[" +:+ host +:+ "]:" +:+ port]
  = match LookupIP (host +:+ "]:" +:+ port) with
    | (_, Some e) => (None, Some e)
    | (ips, None) => (Some ips, None)
    end.
Proof.
  intros Hhne Hpne Hhost Hport Hdigits Hip.
  unfold ParseMonitorAddresses. cbn [ParseMonitorAddresses_loop].
  rewrite (hasPort_port_not_number host port Hhost Hport Hdigits).
  replace (strings.HasPrefix ("[" +:+ host +:+ "]:" +:+ port) "[") with true
    by (by destruct (host +:+ "]:" +:+ port)).
  assert (Htrim : strings.Trim ("[" +:+ host +:+ "]:" +:+ port) "[]"
                  = host +:+ "]:" +:+ port).
  { unfold strings.Trim. destruct host as [|c host]; [done|].
    change ("[" +:+ String c host +:+ "]:" +:+ port)
      with (String "[" (String c (host +:+ "]:" +:+ port))).
    cbn [strings.TrimLeft]. change (strings.inCutset "[" "[]") with true.
    cbn iota. pose proof Hhost as Hc. cbn [allBytes] in Hc.
    apply andb_true_iff in Hc as [Hc _]. apply negb_true_iff in Hc.
    rewrite Hc.
    change (String c (host +:+ "]:" +:+ port))
      with (String c host +:+ "]:" +:+ port).
    rewrite <- append_assoc. by apply TrimRight_append_clean. }
  rewrite Htrim, Hip. destruct (LookupIP _) as [ips [e|]]; [done|].
  by destruct ips.
Qed.

Lemma ParseMonitorAddresses_port_not_number_witness :
  ParseMonitorAddresses (λ host, ([], Some (DNSError "no such host" host)))
    ["[::1]:http"]
  = (None, Some (DNSError "no such host" "::1]:http")).
Proof.
  apply (ParseMonitorAddresses_port_not_number
           (λ host, ([], Some (DNSError "no such host" host))) "::1" "http");
    (reflexivity || discriminate).
Defined.
